(** * The process handle of golang-app-framework (package app)

    A verification development for [app/app.go]: the environment lookup
    that fans out one goroutine per entry, the lazily created logger and
    error channel behind their mutexes, and the exit orchestration.

    Goroutines are modelled by small-step machines whose transitions are
    the atomic actions of the source (a mutex operation, a read or a write
    of a field of the handle, a channel or wait-group operation).  A
    schedule picks which goroutine moves next; the statements about
    concurrent callers quantify over all schedules, the others are about
    one call running alone. *)

From stdpp Require Import base tactics option list strings pretty.
From Stdlib Require Import Ascii ZArith Lia.

#[local] Set Warnings "-clear-no-such-hyp".


(** ** Strings: [strings.SplitN(line, "=", 2)] *)

(** [cut_eq line] looks for the first ['='] of [line] and returns the text
    before it and the text after it. *)
Fixpoint cut_eq (line : string) : option (string * string) :=
  match line with
  | EmptyString => None
  | String c rest =>
      if Ascii.eqb c "="%char then Some (EmptyString, rest)
      else match cut_eq rest with
           | Some (k, v) => Some (String c k, v)
           | None => None
           end
  end.

(** [strings.SplitN(line, "=", 2)]: at most two pieces, the second one is
    the unsplit remainder; a line without separator comes back whole. *)
Definition SplitN2 (line : string) : list string :=
  match cut_eq line with
  | Some (k, v) => [k; v]
  | None => [line]
  end.

(** The key portion of an entry: the text before its first ['='], when
    there is one. *)
Definition key_portion (line : string) : option string :=
  fst <$> cut_eq line.

Fixpoint has_eq (s : string) : bool :=
  match s with
  | EmptyString => false
  | String c rest => Ascii.eqb c "="%char || has_eq rest
  end.

(** ** The handle *)

(** An [error] value; [None] is Go's [nil]. *)
Definition error := option string.

(** Standard streams are opaque; [os_Stderr] is the one of the platform. *)
Definition stream := nat.
Definition os_Stderr : stream := 2.

(** What a call of the exit handler does with control. *)
Inductive handler_outcome :=
| HReturns                      (* hands control back to [Exit] *)
| HPanics (msg : string)        (* unwinds, as the handlers of the tests *)
| HTerminates.                  (* ends the process, as [os.Exit] *)

(** References into the heaps below. *)
Abbreviation ptr := nat (only parsing).

Record App := mkApp {
  Arguments : list string;
  Environment : list string;
  ContextDone : bool;            (* [a.Context.Done()] is closed; the
                                    context itself is set, not nil *)
  Stdin : stream;
  Stdout : stream;
  Stderr : stream;
  ExitHandler : option (Z -> handler_outcome);
  loggerMu : bool;               (* [true]: locked *)
  logger : option ptr;           (* [*gomol.Base], [None] is nil *)
  errchMu : bool;
  errch : option ptr             (* [chan error], [None] is nil *)
}.

Definition set_ContextDone (b : bool) (a : App) : App :=
  mkApp (Arguments a) (Environment a) b (Stdin a) (Stdout a) (Stderr a)
        (ExitHandler a) (loggerMu a) (logger a) (errchMu a) (errch a).
Definition set_loggerMu (b : bool) (a : App) : App :=
  mkApp (Arguments a) (Environment a) (ContextDone a) (Stdin a) (Stdout a)
        (Stderr a) (ExitHandler a) b (logger a) (errchMu a) (errch a).
Definition set_logger (l : option ptr) (a : App) : App :=
  mkApp (Arguments a) (Environment a) (ContextDone a) (Stdin a) (Stdout a)
        (Stderr a) (ExitHandler a) (loggerMu a) l (errchMu a) (errch a).
Definition set_errchMu (b : bool) (a : App) : App :=
  mkApp (Arguments a) (Environment a) (ContextDone a) (Stdin a) (Stdout a)
        (Stderr a) (ExitHandler a) (loggerMu a) (logger a) b (errch a).
Definition set_errch (c : option ptr) (a : App) : App :=
  mkApp (Arguments a) (Environment a) (ContextDone a) (Stdin a) (Stdout a)
        (Stderr a) (ExitHandler a) (loggerMu a) (logger a) (errchMu a) c.

(** A handle as a struct literal outside the package builds it: the
    unexported fields hold their zero values. *)
Definition new_handle (args environ : list string) (done : bool)
    (stdin stdout stderr : stream) (h : option (Z -> handler_outcome)) : App :=
  mkApp args environ done stdin stdout stderr h false None false None.



(** The handle of the tests: buffers for the streams, and an exit handler
    that panics with [fmt.Sprintf("system exit %d", code)]. *)
Definition test_app (environ : list string) : App :=
  new_handle [] environ false 10 11 12
    (Some (fun code => HPanics ("system exit " +:+ pretty code))).

(** ** Counting over a list of goroutines *)

Fixpoint total {A : Type} (f : A -> nat) (l : list A) : nat :=
  match l with
  | [] => 0
  | x :: l' => f x + total f l'
  end.

(** ** Schedules *)

(** A machine is a partial function [step : A -> S -> option S] from
    actions and states; [None] means that the action is not enabled.
    [run] follows a schedule.  [eventually step allowed P s]: along every
    execution from [s] made of allowed actions a state satisfying [P] is
    reached, and no such execution gets stuck before. *)
Section Machine.
Context {S A : Type} (step : A -> S -> option S).

Fixpoint run (sched : list A) (s : S) : option S :=
  match sched with
  | [] => Some s
  | a :: rest =>
      match step a s with
      | Some s' => run rest s'
      | None => None
      end
  end.

Inductive eventually (allowed : A -> bool) (P : S -> Prop) : S -> Prop :=
| ev_now s : P s -> eventually allowed P s
| ev_later s :
    (exists a s', allowed a = true /\ step a s = Some s') ->
    (forall a s', allowed a = true -> step a s = Some s' ->
                  eventually allowed P s') ->
    eventually allowed P s.
End Machine.

(** ** LookupEnv: one goroutine per entry *)

Module LookupEnv.

(** A per-entry goroutine: about to run its [select], blocked on
    [ch <- slice[1]], about to run the deferred [wg.Done()], or finished. *)
Inductive worker :=
| WStart (line : string)
| WSend (v : string)
| WDefer
| WExit.

(** The goroutine that waits for the group and closes the channel. *)
Inductive closer :=
| CWait
| CClose
| CExit.

Record state := mkState {
  app : App;
  pending : list string;          (* entries the range loop has not reached *)
  workers : list worker;
  wg : nat;                       (* counter of the wait group *)
  closing : closer;
  ch_closed : bool;               (* [ch] is unbuffered: open or closed *)
  result : option (string * bool);(* [None]: the caller waits in [<-ch] *)
  crashed : bool                  (* a goroutine panicked *)
}.

(** The state in which the caller reaches [v, ok := <-ch]: the counter was
    raised by [len(a.Environment)], both goroutines were started. *)
Definition init (a : App) : state :=
  mkState a (Environment a) [] (length (Environment a)) CWait false None false.

(** The [default] branch of the select. *)
Definition entry_value (key line : string) : option string :=
  match SplitN2 line with
  | [k; v] => if String.eqb k key then Some v else None
  | _ => None
  end.

(** The [select]: a closed [Done()] channel wins over [default]. *)
Definition select (done : bool) (key line : string) : worker :=
  if done then WDefer
  else match entry_value key line with
       | Some v => WSend v
       | None => WDefer
       end.

Inductive action :=
| ACancel                         (* the owner of the context cancels it *)
| ASpawn                          (* the range loop starts a goroutine *)
| AWorker (i : nat)               (* goroutine [i] takes its next step *)
| ACloser                         (* the closing goroutine moves *)
| ARecv.                          (* the caller receives from a closed [ch] *)

Definition set_app (a : App) (s : state) : state :=
  mkState a (pending s) (workers s) (wg s) (closing s) (ch_closed s)
          (result s) (crashed s).
Definition set_spawn (ps : list string) (ws : list worker) (s : state) : state :=
  mkState (app s) ps ws (wg s) (closing s) (ch_closed s) (result s) (crashed s).
Definition set_worker (i : nat) (w : worker) (s : state) : state :=
  mkState (app s) (pending s) (<[i:=w]> (workers s)) (wg s) (closing s)
          (ch_closed s) (result s) (crashed s).
Definition set_wg (n : nat) (s : state) : state :=
  mkState (app s) (pending s) (workers s) n (closing s) (ch_closed s)
          (result s) (crashed s).
Definition set_closing (c : closer) (closed : bool) (s : state) : state :=
  mkState (app s) (pending s) (workers s) (wg s) c closed (result s)
          (crashed s).
Definition set_result (r : string * bool) (s : state) : state :=
  mkState (app s) (pending s) (workers s) (wg s) (closing s) (ch_closed s)
          (Some r) (crashed s).
Definition crash (s : state) : state :=
  mkState (app s) (pending s) (workers s) (wg s) (closing s) (ch_closed s)
          (result s) true.

(** One atomic action; [None] when the action is not enabled (the
    goroutine is blocked or does not exist).  A panic of any goroutine
    brings the process down: nothing moves afterwards. *)
Definition step (key : string) (a : action) (s : state) : option state :=
  if crashed s then None else
  match a with
  | ACancel =>
      if ContextDone (app s) then None
      else Some (set_app (set_ContextDone true (app s)) s)
  | ASpawn =>
      match pending s with
      | [] => None
      | line :: rest => Some (set_spawn rest (workers s ++ [WStart line]) s)
      end
  | AWorker i =>
      match workers s !! i with
      | Some (WStart line) =>
          Some (set_worker i (select (ContextDone (app s)) key line) s)
      | Some (WSend v) =>
          if ch_closed s then Some (crash s)   (* send on closed channel *)
          else match result s with
               | None => Some (set_result (v, true) (set_worker i WDefer s))
               | Some _ => None                (* nobody receives any more *)
               end
      | Some WDefer =>
          match wg s with
          | O => Some (crash s)                (* negative WaitGroup counter *)
          | S n => Some (set_wg n (set_worker i WExit s))
          end
      | Some WExit | None => None
      end
  | ACloser =>
      match closing s with
      | CWait => if Nat.eqb (wg s) 0 then Some (set_closing CClose (ch_closed s) s)
                 else None
      | CClose => if ch_closed s then Some (crash s)  (* close of closed channel *)
                  else Some (set_closing CExit true s)
      | CExit => None
      end
  | ARecv =>
      match result s with
      | Some _ => None
      | None => if ch_closed s then Some (set_result ("", false) s) else None
      end
  end.

Definition any_action (a : action) : bool := true.
Definition no_cancel (a : action) : bool :=
  match a with ACancel => false | _ => true end.

(** [LookupEnv(key)] on handle [a] returns [r]: whatever the scheduler
    does with the allowed actions, the caller's receive completes, with
    [r]. *)
Definition returns (allowed : action -> bool) (a : App) (key : string)
    (r : string * bool) : Prop :=
  eventually (step key) allowed (fun s => result s = Some r) (init a) /\
  forall sched s r',
    Forall (fun x => allowed x = true) sched ->
    run (step key) sched (init a) = Some s -> result s = Some r' -> r' = r.

(** *** Words for the statements about [LookupEnv] *)

(** Exactly one entry of [env] has key portion [key], and its value is [V]. *)
Definition unique_entry (key V : string) (env : list string) : Prop :=
  exists pre line post,
    env = pre ++ line :: post /\ cut_eq line = Some (key, V) /\
    Forall (fun l => key_portion l <> Some key) (pre ++ post).

(** An entry without ['='], or with another key portion. *)
Definition other_entry (key line : string) : Prop :=
  has_eq line = false \/ key_portion line <> Some key.

End LookupEnv.

(** ** The logging library (gomol and its console sink)

    The handle uses the library through [NewBase], [AddLogger],
    [InitLoggers], [IsInitialized] and [ShutdownLoggers]; a [Base] is
    modelled by what these calls read and write. *)

Module gomol.

Record Config := mkConfig {
  FilenameAttr : string;
  LineNumberAttr : string;
  SequenceAttr : string;
  MaxQueueSize : Z
}.

(** A sink attached to a base: the console sink of [gomolconsole], or a
    sink of a client, which may refuse to start or to stop. *)
Inductive Sink :=
| ConsoleLogger (colorize : bool) (writer : stream) (template : string)
| ClientLogger (init_err shutdown_err : error).

Definition InitLogger (s : Sink) : error :=
  match s with
  | ConsoleLogger _ _ _ => None
  | ClientLogger e _ => e
  end.

Definition ShutdownLogger (s : Sink) : error :=
  match s with
  | ConsoleLogger _ _ _ => None
  | ClientLogger _ e => e
  end.

Record Base := mkBase {
  config : Config;
  loggers : list Sink;
  isInitialized : bool
}.

(** The first error met when [f] runs over the sinks in order. *)
Fixpoint first_error (f : Sink -> error) (l : list Sink) : error :=
  match l with
  | [] => None
  | s :: l' => match f s with Some e => Some e | None => first_error f l' end
  end.

Definition NewBase (c : Config) : Base := mkBase c [] false.

Definition AddLogger (s : Sink) (b : Base) : Base :=
  mkBase (config b) (loggers b ++ [s]) (isInitialized b).

(** [InitLoggers] and [ShutdownLoggers] stop at the first sink that
    fails and leave the flag as it was. *)
Definition InitLoggers (b : Base) : Base * error :=
  match first_error InitLogger (loggers b) with
  | Some e => (b, Some e)
  | None => (mkBase (config b) (loggers b) true, None)
  end.

Definition ShutdownLoggers (b : Base) : Base * error :=
  match first_error ShutdownLogger (loggers b) with
  | Some e => (b, Some e)
  | None => (mkBase (config b) (loggers b) false, None)
  end.

End gomol.

(** ** The methods of the handle, one atomic action at a time *)

Module Handle.

Definition dq : string := String (ascii_of_nat 34) EmptyString.

Definition timestamp : string :=
  "{{.Timestamp.Format " +:+ dq +:+ "2006-01-02 15:04:05.000" +:+ dq +:+ "}} ".
Definition logTemplate : string :=
  "[{{color}}{{ucase .LevelName}}{{reset}}] {{.Message}}{{if .Attrs}} {{json .Attrs}}{{end}}".

(** A buffered channel of errors. *)
Record Chan := mkChan {
  chan_cap : nat;
  chan_buf : list error;
  chan_closed : bool
}.

(** What the outside of the handle can see happen. *)
Inductive event :=
| EvShutdown (p : ptr)            (* the sinks of base [p] were shut down *)
| EvExitHandler (code : Z)        (* [a.ExitHandler(code)] was called *)
| EvOsExit (code : Z)             (* [os.Exit(code)] was called *)
| EvRecv (c : ptr) (r : error * bool). (* a reader received [r] from [c] *)

Record World := mkWorld {
  handle : App;
  bases : list gomol.Base;        (* the heap of [*gomol.Base] *)
  chans : list Chan;              (* the heap of channels *)
  events : list event;            (* oldest first *)
  exited : bool                   (* the process was terminated *)
}.

Definition set_handle (a : App) (w : World) : World :=
  mkWorld a (bases w) (chans w) (events w) (exited w).
Definition set_bases (bs : list gomol.Base) (w : World) : World :=
  mkWorld (handle w) bs (chans w) (events w) (exited w).
Definition set_chans (cs : list Chan) (w : World) : World :=
  mkWorld (handle w) (bases w) cs (events w) (exited w).
Definition log_event (e : event) (w : World) : World :=
  mkWorld (handle w) (bases w) (chans w) (events w ++ [e]) (exited w).
Definition terminate (w : World) : World :=
  mkWorld (handle w) (bases w) (chans w) (events w) true.

Definition boot (a : App) : World := mkWorld a [] [] [] false.

(** The base that [Logger] builds before it stores it: configuration,
    then the console sink with its template. *)
Definition console_base (a : App) : gomol.Base :=
  let template :=
    if Nat.eqb (Stderr a) os_Stderr then timestamp +:+ logTemplate
    else logTemplate in
  gomol.AddLogger
    (gomol.ConsoleLogger true (Stderr a) template)
    (gomol.NewBase (gomol.mkConfig "filename" "lineno" "seq" 10000%Z)).

Inductive value :=
| VLogger (l : option ptr)
| VChan (c : option ptr)
| VUnit.

(** Who called [ensureErrorChannel]. *)
Inductive caller :=
| FromErrors
| FromHandleError (err : error).

(** Program points, named after the statement about to run. *)
Inductive pc :=
(* Logger *)
| L_lock                          (* a.loggerMu.Lock() *)
| L_check                         (* if a.logger == nil *)
| L_new                           (* logger := gomol.NewBase(...); AddLogger *)
| L_store (p : ptr)               (* a.logger = logger *)
| L_init (p : ptr)                (* logger.InitLoggers() *)
| L_load                          (* return a.logger *)
| L_unlock (r : option ptr)       (* deferred a.loggerMu.Unlock() *)
(* Exit *)
| X_lock (code : Z)               (* a.loggerMu.Lock() *)
| X_check (code : Z)              (* if a.logger != nil *)
| X_isinit (code : Z) (p : ptr)   (* if a.logger.IsInitialized() *)
| X_shutdown (code : Z) (p : ptr) (* a.logger.ShutdownLoggers() *)
| X_clear (code : Z)              (* a.logger = nil *)
| X_unlock (code : Z)             (* a.loggerMu.Unlock() *)
| X_handler (code : Z)            (* os.Exit(code) or a.ExitHandler(code) *)
| X_returned                      (* panic("exit handler returned") *)
(* ensureErrorChannel *)
| E_lock (k : caller)             (* a.errchMu.Lock() *)
| E_check (k : caller)            (* if a.errch == nil *)
| E_make (k : caller)             (* a.errch = make(chan error, 1) *)
| E_unlock (k : caller)           (* deferred a.errchMu.Unlock() *)
(* Errors *)
| R_load                          (* return a.errch *)
(* HandleError *)
| H_send (err : error)            (* a.errch <- err *)
| H_close.                        (* close(a.errch) *)

Inductive thread :=
| Running (p : pc)
| Returned (v : value)
| Panicked (msg : string)
| Gone.                           (* ended with the process *)

Definition nil_deref : string := "invalid memory address or nil pointer dereference".
Definition unlock_unlocked : string := "sync: unlock of unlocked mutex".

(** One atomic pool_action of a goroutine at program point [p]; [None] when
    it is blocked. *)
Definition step_pc (p : pc) (w : World) : option (World * thread) :=
  let a := handle w in
  match p with
  | L_lock =>
      if loggerMu a then None
      else Some (set_handle (set_loggerMu true a) w, Running L_check)
  | L_check =>
      match logger a with
      | None => Some (w, Running L_new)
      | Some _ => Some (w, Running L_load)
      end
  | L_new =>
      Some (set_bases (bases w ++ [console_base a]) w,
            Running (L_store (length (bases w))))
  | L_store p =>
      Some (set_handle (set_logger (Some p) a) w, Running (L_init p))
  | L_init p =>
      match bases w !! p with
      | Some b =>
          Some (set_bases (<[p := fst (gomol.InitLoggers b)]> (bases w)) w,
                Running L_load)
      | None => Some (w, Panicked nil_deref)
      end
  | L_load => Some (w, Running (L_unlock (logger a)))
  | L_unlock r =>
      if loggerMu a
      then Some (set_handle (set_loggerMu false a) w, Returned (VLogger r))
      else Some (w, Panicked unlock_unlocked)
  | X_lock code =>
      if loggerMu a then None
      else Some (set_handle (set_loggerMu true a) w, Running (X_check code))
  | X_check code =>
      match logger a with
      | Some p => Some (w, Running (X_isinit code p))
      | None => Some (w, Running (X_unlock code))
      end
  | X_isinit code p =>
      match bases w !! p with
      | Some b =>
          if gomol.isInitialized b then Some (w, Running (X_shutdown code p))
          else Some (w, Running (X_clear code))
      | None => Some (w, Panicked nil_deref)
      end
  | X_shutdown code p =>
      match bases w !! p with
      | Some b =>
          let '(b', err) := gomol.ShutdownLoggers b in
          let w' := log_event (EvShutdown p) (set_bases (<[p := b']> (bases w)) w) in
          match err with
          | Some msg => Some (w', Panicked msg)       (* panic(err) *)
          | None => Some (w', Running (X_clear code))
          end
      | None => Some (w, Panicked nil_deref)
      end
  | X_clear code =>
      Some (set_handle (set_logger None a) w, Running (X_unlock code))
  | X_unlock code =>
      if loggerMu a
      then Some (set_handle (set_loggerMu false a) w, Running (X_handler code))
      else Some (w, Panicked unlock_unlocked)
  | X_handler code =>
      match ExitHandler a with
      | None => Some (terminate (log_event (EvOsExit code) w), Gone)
      | Some h =>
          let w' := log_event (EvExitHandler code) w in
          match h code with
          | HReturns => Some (w', Running X_returned)
          | HPanics msg => Some (w', Panicked msg)
          | HTerminates => Some (terminate w', Gone)
          end
      end
  | X_returned => Some (w, Panicked "exit handler returned")
  | E_lock k =>
      if errchMu a then None
      else Some (set_handle (set_errchMu true a) w, Running (E_check k))
  | E_check k =>
      match errch a with
      | None => Some (w, Running (E_make k))
      | Some _ => Some (w, Running (E_unlock k))
      end
  | E_make k =>
      Some (set_handle (set_errch (Some (length (chans w))) a)
              (set_chans (chans w ++ [mkChan 1 [] false]) w),
            Running (E_unlock k))
  | E_unlock k =>
      if errchMu a
      then Some (set_handle (set_errchMu false a) w,
                 match k with
                 | FromErrors => Running R_load
                 | FromHandleError err => Running (H_send err)
                 end)
      else Some (w, Panicked unlock_unlocked)
  | R_load => Some (w, Returned (VChan (errch a)))
  | H_send err =>
      match errch a with
      | None => None                       (* a nil channel blocks for ever *)
      | Some c =>
          match chans w !! c with
          | Some ch =>
              if chan_closed ch then Some (w, Panicked "send on closed channel")
              else if Nat.ltb (length (chan_buf ch)) (chan_cap ch)
              then Some (set_chans
                           (<[c := mkChan (chan_cap ch) (chan_buf ch ++ [err])
                                          false]> (chans w)) w,
                         Running H_close)
              else None                    (* the buffer is full *)
          | None => Some (w, Panicked nil_deref)
          end
      end
  | H_close =>
      match errch a with
      | None => Some (w, Panicked "close of nil channel")
      | Some c =>
          match chans w !! c with
          | Some ch =>
              if chan_closed ch then Some (w, Panicked "close of closed channel")
              else Some (set_chans
                           (<[c := mkChan (chan_cap ch) (chan_buf ch) true]>
                              (chans w)) w,
                         Returned VUnit)
          | None => Some (w, Panicked nil_deref)
          end
      end
  end.

(** A receive [x, ok := <-c] by a reader that holds channel [c]. *)
Definition recv (c : ptr) (w : World) : option (World * (error * bool)) :=
  match chans w !! c with
  | Some ch =>
      match chan_buf ch with
      | e :: rest =>
          Some (set_chans
                  (<[c := mkChan (chan_cap ch) rest (chan_closed ch)]> (chans w)) w,
                (e, true))
      | [] => if chan_closed ch then Some (w, (None, false)) else None
      end
  | None => None
  end.

(** *** A call that runs alone *)

(** [exec_to stop fuel p w] runs the goroutine from [p] with nobody else
    moving, until it ends, blocks, or reaches a point where [stop] holds. *)
Fixpoint exec_to (stop : pc -> bool) (fuel : nat) (p : pc) (w : World)
    : World * thread :=
  if stop p then (w, Running p) else
  match fuel with
  | O => (w, Running p)
  | S n =>
      match step_pc p w with
      | Some (w', Running p') => exec_to stop n p' w'
      | Some (w', t) => (w', t)
      | None => (w, Running p)
      end
  end.

(** No method takes more than eight actions. *)
Definition call (p : pc) (w : World) : World * thread :=
  exec_to (fun _ => false) 8 p w.

Definition Logger : World -> World * thread := call L_lock.
Definition Exit (code : Z) : World -> World * thread := call (X_lock code).
Definition Errors : World -> World * thread := call (E_lock FromErrors).
Definition HandleError (err : error) : World -> World * thread :=
  call (E_lock (FromHandleError err)).

(** *** Goroutines that call the methods concurrently *)

Record Pool := mkPool {
  world : World;
  threads : list thread
}.

Inductive pool_action :=
| Step (i : nat)                 (* goroutine [i] takes its next pool_action *)
| Receive (c : ptr).                (* some reader receives from channel [c] *)

Definition pool_step (x : pool_action) (m : Pool) : option Pool :=
  if exited (world m) then None else
  match x with
  | Step i =>
      match threads m !! i with
      | Some (Running p) =>
          match step_pc p (world m) with
          | Some (w', t') => Some (mkPool w' (<[i := t']> (threads m)))
          | None => None
          end
      | _ => None
      end
  | Receive c =>
      match recv c (world m) with
      | Some (w', r) => Some (mkPool (log_event (EvRecv c r) w') (threads m))
      | None => None
      end
  end.

Definition is_step (x : pool_action) : bool :=
  match x with Step _ => true | Receive _ => false end.

(** *** Words for the statements about the methods *)

(** The error channel is absent, or present, open and empty as
    [ensureErrorChannel] makes it: no error was handled yet. *)
Definition unused_errch (w : World) : Prop :=
  errchMu (handle w) = false /\
  match errch (handle w) with
  | None => True
  | Some c => chans w !! c = Some (mkChan 1 [] false)
  end.

(** The channel on which the error travels. *)
Definition errch_of (w : World) : ptr :=
  match errch (handle w) with
  | Some c => c
  | None => length (chans w)
  end.

(** The error channel is closed: an error was handled. *)
Definition closed_errch (w : World) : Prop :=
  errchMu (handle w) = false /\
  exists c ch, errch (handle w) = Some c /\ chans w !! c = Some ch /\
               chan_closed ch = true.

(** Receives by readers, on any channels, in any number; a receive that
    would block is not made. *)
Fixpoint drain (cs : list ptr) (w : World) : World :=
  match cs with
  | [] => w
  | c :: cs' =>
      match recv c w with
      | Some (w', _) => drain cs' w'
      | None => drain cs' w
      end
  end.

(** The base that [Logger()] leaves behind: the console sink attached,
    the sinks started. *)
Definition logger_base (a : App) : gomol.Base :=
  fst (gomol.InitLoggers (console_base a)).

(** The logger of the handle is base [p], as [Logger()] has made it. *)
Definition made_by_Logger (w : World) (p : ptr) : Prop :=
  logger (handle w) = Some p /\ bases w !! p = Some (logger_base (handle w)).

(** The shutdown that [Exit] may run does not fail. *)
Definition sound_logger (w : World) : Prop :=
  match logger (handle w) with
  | None => True
  | Some p =>
      exists b, bases w !! p = Some b /\
                (gomol.isInitialized b = true ->
                 snd (gomol.ShutdownLoggers b) = None)
  end.

Definition at_handler (p : pc) : bool :=
  match p with X_handler _ => true | _ => false end.

(** [Exit] up to the point where the handler is called. *)
Definition Exit_teardown (code : Z) : World -> World * thread :=
  exec_to at_handler 8 (X_lock code).

(** What [Exit] comes to when it calls the handler in state [w] and the
    call has the outcome [o]: a handler that returns makes [Exit] panic,
    the panic of a handler goes through [Exit], and after a handler that
    ends the process nothing runs. *)
Definition handler_called (code : Z) (o : handler_outcome) (w : World)
    : World * thread :=
  let w' := log_event (EvExitHandler code) w in
  match o with
  | HReturns => (w', Panicked "exit handler returned")
  | HPanics msg => (w', Panicked msg)
  | HTerminates => (terminate w', Gone)
  end.

Definition same_inputs (a a' : App) : Prop :=
  Arguments a' = Arguments a /\ Environment a' = Environment a.

(** What readers have received from channel [c], oldest first. *)
Fixpoint received (c : ptr) (evs : list event) : list (error * bool) :=
  match evs with
  | [] => []
  | EvRecv c' r :: evs' =>
      if Nat.eqb c' c then r :: received c evs' else received c evs'
  | _ :: evs' => received c evs'
  end.

End Handle.

(** ** Counting: lemmas *)

Section Total.
Context {A : Type} (f : A -> nat).

Lemma total_app l1 l2 : total f (l1 ++ l2) = total f l1 + total f l2.
Proof. induction l1 as [|x l1 IH]; simpl; [done | rewrite IH; lia]. Qed.

Lemma total_insert l i x y :
  l !! i = Some x -> total f (<[i:=y]> l) + f x = total f l + f y.
Proof.
  revert i; induction l as [|z l IH]; intros [|i] Hi; simplify_eq/=.
  - lia.
  - specialize (IH _ Hi). lia.
Qed.

Lemma total_pos l : 0 < total f l -> exists i x, l !! i = Some x /\ 0 < f x.
Proof.
  induction l as [|z l IH]; simpl; [lia | intros H].
  destruct (decide (0 < f z)) as [Hz | Hz].
  - by exists 0, z.
  - destruct IH as (i & x & Hi & Hx); [lia |]. by exists (S i), x.
Qed.

Lemma total_replicate n x : total f (replicate n x) = n * f x.
Proof. induction n as [|n IH]; simpl; [done | rewrite IH; lia]. Qed.
End Total.

Lemma total_lookup_le {A} (f : A -> nat) (l : list A) i x :
  l !! i = Some x -> f x <= total f l.
Proof.
  revert i; induction l as [|z l IH]; intros [|i] Hi; simplify_eq/=.
  - lia.
  - specialize (IH _ Hi). lia.
Qed.

Lemma total_le_one_unique {A} (f : A -> nat) (l : list A) i j x y :
  total f l <= 1 -> l !! i = Some x -> l !! j = Some y ->
  0 < f x -> 0 < f y -> i = j.
Proof.
  revert i j; induction l as [|z l IH]; intros [|i] [|j] Ht Hi Hj Hx Hy;
    simplify_eq/=; try done.
  - apply (total_lookup_le f) in Hj. lia.
  - apply (total_lookup_le f) in Hi. lia.
  - f_equal. eapply IH; eauto. lia.
Qed.

Lemma total_le {A} (f g : A -> nat) (l : list A) :
  (forall x, f x <= g x) -> total f l <= total g l.
Proof.
  intros Hfg. induction l as [|x l IH]; simpl; [done|].
  specialize (Hfg x). lia.
Qed.

Lemma total_le_length {A} (f : A -> nat) (l : list A) :
  (forall x, f x <= 1) -> total f l <= length l.
Proof.
  intros Hf. induction l as [|x l IH]; simpl; [done|].
  specialize (Hf x). lia.
Qed.

Lemma lookup_snoc {A} (l : list A) (x : A) : (l ++ [x]) !! length l = Some x.
Proof. by apply list_lookup_middle. Qed.

Lemma insert_snoc {A} (l : list A) (x y : A) :
  <[length l := y]> (l ++ [x]) = l ++ [y].
Proof.
  rewrite insert_app_r_alt by lia. by rewrite Nat.sub_diag.
Qed.

Lemma run_invariant {S A : Type} (step : A -> S -> option S) (Inv : S -> Prop) :
  (forall x s s', Inv s -> step x s = Some s' -> Inv s') ->
  forall sched s s', Inv s -> run step sched s = Some s' -> Inv s'.
Proof.
  intros Hstep sched. induction sched as [|x sched IH]; intros s s' HI; simpl.
  - by intros [= <-].
  - destruct (step x s) as [s1|] eqn:Es; [|done]. apply IH. by eapply Hstep.
Qed.

(** ** Termination by a measure *)

Lemma eventually_by_measure {S A : Type} (step : A -> S -> option S)
    (measure : S -> nat) allowed (P Inv : S -> Prop) :
  (forall s, Inv s -> exists a s', allowed a = true /\ step a s = Some s') ->
  (forall s a s', Inv s -> allowed a = true -> step a s = Some s' ->
                  P s' \/ (Inv s' /\ measure s' < measure s)) ->
  forall s, Inv s -> eventually step allowed P s.
Proof.
  intros Hprog Hstep s. remember (measure s) as n eqn:Hn.
  revert s Hn. induction n as [n IH] using lt_wf_ind. intros s -> HI.
  apply ev_later; [by apply Hprog|].
  intros a s' Ha Hs. destruct (Hstep s a s' HI Ha Hs) as [HP | [HI' Hlt]].
  - by apply ev_now.
  - by eapply IH.
Qed.

(** ** LookupEnv: every schedule returns *)

Module LookupEnvFacts.
Import LookupEnv.

Lemma entry_value_Some key line v :
  entry_value key line = Some v <-> cut_eq line = Some (key, v).
Proof.
  unfold entry_value, SplitN2. destruct (cut_eq line) as [[k v']|]; [|done].
  destruct (String.eqb_spec k key) as [->|Hne]; split; intros H; by simplify_eq.
Qed.

Lemma entry_value_None key line :
  key_portion line <> Some key -> entry_value key line = None.
Proof.
  intros Hk. destruct (entry_value key line) as [v|] eqn:E; [|done].
  apply entry_value_Some in E. unfold key_portion in Hk. by rewrite E in Hk.
Qed.

Lemma append_nil (s : string) : "" +:+ s = s.
Proof. reflexivity. Qed.

Lemma append_cons c (k s : string) : String c k +:+ s = String c (k +:+ s).
Proof. reflexivity. Qed.

(** [cut_eq] cuts at the first ['=']: the key has none. *)
Lemma cut_eq_spec line k v :
  cut_eq line = Some (k, v) <-> line = k +:+ "=" +:+ v /\ has_eq k = false.
Proof.
  revert k; induction line as [|c rest IH]; intros k; simpl.
  - split; [done | intros [H _]; by destruct k].
  - destruct (Ascii.eqb_spec c "="%char) as [->|Hc].
    + split.
      * intros [= <- <-]. done.
      * intros [H Hk]. destruct k as [|c' k].
        -- rewrite append_nil, append_cons, append_nil in H. by simplify_eq.
        -- rewrite append_cons in H. simpl in Hk. injection H as <- _.
           by rewrite Ascii.eqb_refl in Hk.
    + destruct (cut_eq rest) as [[k' v']|].
      * split.
        -- intros [= <- <-]. destruct (proj1 (IH k') eq_refl) as [-> Hk].
           split; [done|]. simpl. apply orb_false_iff.
           split; [by apply Ascii.eqb_neq | done].
        -- intros [H Hk]. destruct k as [|c' k].
           ++ rewrite append_nil, append_cons in H. by simplify_eq.
           ++ rewrite append_cons in H. simpl in Hk. injection H as <- H.
              apply orb_false_iff in Hk as [_ Hk].
              pose proof (proj2 (IH k) (conj H Hk)). by simplify_eq.
      * split; [done|]. intros [H Hk]. destruct k as [|c' k].
        -- rewrite append_nil, append_cons in H. by simplify_eq.
        -- rewrite append_cons in H. simpl in Hk. injection H as <- H.
           apply orb_false_iff in Hk as [_ Hk].
           pose proof (proj2 (IH k) (conj H Hk)). by simplify_eq.
Qed.

(** Progress of a goroutine towards its end, and of the whole state. *)
Definition worker_weight (w : worker) : nat :=
  match w with WStart _ => 3 | WSend _ => 2 | WDefer => 1 | WExit => 0 end.

(** Goroutines that have not yet called [wg.Done()]. *)
Definition live (w : worker) : nat :=
  match w with WExit => 0 | _ => 1 end.

Definition closer_weight (c : closer) : nat :=
  match c with CWait => 2 | CClose => 1 | CExit => 0 end.

Definition measure (s : state) : nat :=
  4 * length (pending s) + total worker_weight (workers s)
  + closer_weight (closing s)
  + (match result s with Some _ => 0 | None => 1 end)
  + (if ContextDone (app s) then 0 else 1).

(** The counter of the wait group is the number of goroutines, started or
    not, that have not yet called [Done]. *)
Definition counted (s : state) : Prop :=
  wg s = length (pending s) + total live (workers s).

(** *** No sender: the channel is closed and the caller sees it *)

(** A goroutine that will not send: its [select] leads straight to the
    deferred [Done]. *)
Definition quiet_worker (key : string) (done : bool) (w : worker) : Prop :=
  match w with
  | WStart line => select done key line = WDefer
  | WSend _ => False
  | WDefer | WExit => True
  end.

Record quiet (key : string) (s : state) : Prop := {
  q_crashed : crashed s = false;
  q_counted : counted s;
  q_pending :
    Forall (fun line => select (ContextDone (app s)) key line = WDefer)
           (pending s);
  q_workers : Forall (quiet_worker key (ContextDone (app s))) (workers s);
  q_closing :
    ch_closed s = match closing s with CExit => true | _ => false end;
  q_result : result s = None
}.

Lemma quiet_progress key s :
  quiet key s -> exists a s', no_cancel a = true /\ step key a s = Some s'.
Proof.
  intros [Hc Hn Hp Hw Hcl Hr]. unfold step. rewrite Hc.
  destruct (pending s) as [|line rest] eqn:Ep.
  - destruct (decide (0 < total live (workers s))) as [Hl | Hl].
    + destruct (total_pos live _ Hl) as (i & w & Hi & Hlw).
      exists (AWorker i). rewrite Hi.
      pose proof (total_lookup_le live _ _ _ Hi) as Hle.
      rewrite Forall_lookup in Hw. specialize (Hw _ _ Hi).
      red in Hn. rewrite Ep in Hn. simpl in Hn.
      destruct w as [line|v| |]; simpl in *; try done; try lia.
      * eauto.
      * destruct (wg s) as [|n]; [lia | eauto].
    + red in Hn. rewrite Ep in Hn. simpl in Hn.
      destruct (closing s) eqn:Ec.
      * exists ACloser. replace (wg s) with 0 by lia. simpl. eauto.
      * exists ACloser. rewrite Hcl. eauto.
      * exists ARecv. rewrite Hr, Hcl. eauto.
  - exists ASpawn. eauto.
Qed.

Lemma quiet_worker_cancel key done w :
  quiet_worker key done w -> quiet_worker key true w.
Proof. by destruct w. Qed.

Lemma quiet_step key a s s' :
  quiet key s -> step key a s = Some s' ->
  result s' = Some ("", false) \/ (quiet key s' /\ measure s' < measure s).
Proof.
  intros [Hc Hn Hp Hw Hcl Hr]. unfold step. rewrite Hc. red in Hn.
  destruct a as [| |i| |].
  - (* the context is cancelled *)
    destruct (ContextDone (app s)) eqn:Ed; [done|]. intros [= <-]. right.
    split; [split; simpl; try done |].
    + by apply Forall_true.
    + eapply Forall_impl; [exact Hw|]. apply quiet_worker_cancel.
    + unfold measure; simpl. rewrite Ed, Hr. lia.
  - (* the loop starts a goroutine *)
    destruct (pending s) as [|line rest] eqn:Ep; [done|]. intros [= <-]. right.
    apply Forall_cons in Hp as [Hl Hp].
    split; [split; simpl; try done |].
    + red; simpl. rewrite total_app. simpl in *. lia.
    + apply Forall_app. split; [done|]. by apply Forall_singleton.
    + unfold measure; simpl. rewrite Ep, total_app. simpl. lia.
  - (* a goroutine moves *)
    destruct (workers s !! i) as [w|] eqn:Ei; [|done].
    pose proof (total_lookup_le live _ _ _ Ei) as Hle.
    rewrite Forall_lookup in Hw. pose proof (Hw _ _ Ei) as Hwi.
    destruct w as [line|v| |]; simpl in Hwi; try done.
    + intros [= <-]. right. rewrite Hwi.
      pose proof (total_insert live _ _ _ WDefer Ei) as Hl.
      pose proof (total_insert worker_weight _ _ _ WDefer Ei) as Hm.
      split; [split; simpl; try done |].
      * red; simpl. simpl in *. lia.
      * apply Forall_insert; [by apply Forall_lookup | done].
      * unfold measure; simpl. simpl in *. lia.
    + pose proof (total_insert live _ _ _ WExit Ei) as Hl.
      pose proof (total_insert worker_weight _ _ _ WExit Ei) as Hm.
      destruct (wg s) as [|n] eqn:En; simpl in *; [lia|].
      intros [= <-]. right.
      split; [split; simpl; try done |].
      * red; simpl. lia.
      * apply Forall_insert; [by apply Forall_lookup | done].
      * unfold measure; simpl. lia.
  - (* the closing goroutine moves *)
    destruct (closing s) eqn:Ec.
    + destruct (Nat.eqb (wg s) 0); [|done]. intros [= <-]. right.
      split; [split; simpl; try done |].
      unfold measure; simpl. rewrite Ec. simpl. lia.
    + rewrite Hcl. intros [= <-]. right.
      split; [split; simpl; try done |].
      unfold measure; simpl. rewrite Ec. simpl. lia.
    + done.
  - (* the caller receives *)
    rewrite Hr. destruct (ch_closed s); [|done]. intros [= <-]. by left.
Qed.

(** The caller returns at most once: a result stays. *)
Lemma result_stable key a s s' r :
  step key a s = Some s' -> result s = Some r -> result s' = Some r.
Proof.
  unfold step. intros Hs Hr. rewrite Hr in Hs.
  repeat (case_match; simplify_eq/=); done.
Qed.

Lemma always_by_invariant key allowed (Inv : state -> Prop) r :
  (forall s, Inv s -> result s = None) ->
  (forall s a s', Inv s -> allowed a = true -> step key a s = Some s' ->
                  result s' = Some r \/ (Inv s' /\ measure s' < measure s)) ->
  forall sched s s' r',
    Inv s \/ result s = Some r ->
    Forall (fun x => allowed x = true) sched ->
    run (step key) sched s = Some s' -> result s' = Some r' -> r' = r.
Proof.
  intros Hnone Hstep sched.
  induction sched as [|a sched IH]; intros s s' r' HI Hall Hrun Hres.
  - simpl in Hrun. simplify_eq. destruct HI as [HI | HI]; [|congruence].
    apply Hnone in HI. congruence.
  - simpl in Hrun. destruct (step key a s) as [s1|] eqn:Es; [|done].
    apply Forall_cons in Hall as [Ha Hall].
    eapply (IH s1); eauto. destruct HI as [HI | HI].
    + destruct (Hstep _ _ _ HI Ha Es) as [? | [? _]]; auto.
    + right. by eapply result_stable.
Qed.

Lemma quiet_returns key allowed a :
  (forall x, no_cancel x = true -> allowed x = true) ->
  quiet key (init a) -> returns allowed a key ("", false).
Proof.
  intros Hall Hq. split.
  - revert Hq. generalize (init a). apply (eventually_by_measure _ measure).
    + intros s0 Hq. destruct (quiet_progress key s0 Hq) as (x & s' & Ha & Hs).
      exists x, s'. auto.
    + intros s0 x s' Hq _ Hs. by apply quiet_step with x.
  - intros sched s r' Hs Hrun Hres.
    eapply (always_by_invariant key allowed (quiet key)); eauto.
    + apply q_result.
    + intros s0 x s' Hq0 _ Hs0. by apply quiet_step with x.
Qed.

(** *** A sender exists and the context stays live *)

Definition line_sends (key line : string) : nat :=
  match entry_value key line with Some _ => 1 | None => 0 end.

(** Goroutines that send, or will once they run. *)
Definition may_send (key : string) (w : worker) : nat :=
  match w with
  | WStart line => line_sends key line
  | WSend _ => 1
  | WDefer | WExit => 0
  end.

Definition line_value (key V line : string) : Prop :=
  forall v, entry_value key line = Some v -> v = V.

Definition sends_only (key V : string) (w : worker) : Prop :=
  match w with
  | WStart line => line_value key V line
  | WSend v => v = V
  | WDefer | WExit => True
  end.

Record searching (key V : string) (s : state) : Prop := {
  s_crashed : crashed s = false;
  s_live : ContextDone (app s) = false;
  s_counted : counted s;
  s_pending : Forall (line_value key V) (pending s);
  s_workers : Forall (sends_only key V) (workers s);
  s_sender :
    0 < total (line_sends key) (pending s) + total (may_send key) (workers s);
  s_closing : closing s = CWait;
  s_open : ch_closed s = false;
  s_result : result s = None
}.

Lemma line_sends_le key line : line_sends key line <= 1.
Proof. unfold line_sends. case_match; lia. Qed.

Lemma may_send_le_live key w : may_send key w <= live w.
Proof. destruct w; simpl; try lia. apply line_sends_le. Qed.

(** While a sender is left, the counter of the wait group is positive. *)
Lemma searching_wg key V s : searching key V s -> 0 < wg s.
Proof.
  intros [_ _ Hn _ _ Hs _ _ _]. red in Hn.
  pose proof (total_le_length (line_sends key) (pending s) (line_sends_le key)).
  pose proof (total_le (may_send key) live (workers s) (may_send_le_live key)).
  lia.
Qed.

Lemma searching_progress key V s :
  searching key V s ->
  exists a s', no_cancel a = true /\ step key a s = Some s'.
Proof.
  intros Hs. pose proof (searching_wg _ _ _ Hs) as Hwg.
  destruct Hs as [Hc Hd Hn Hp Hw Hsd Hcl Hop Hr]. unfold step. rewrite Hc.
  destruct (pending s) as [|line rest] eqn:Ep.
  - simpl in Hsd. destruct (total_pos (may_send key) _ Hsd) as (i & w & Hi & Hm).
    exists (AWorker i). rewrite Hi.
    destruct w as [line|v| |]; simpl in Hm; try lia; [eauto|].
    rewrite Hop, Hr. eauto.
  - exists ASpawn. eauto.
Qed.

Lemma searching_step key V s a s' :
  searching key V s -> no_cancel a = true -> step key a s = Some s' ->
  result s' = Some (V, true) \/ (searching key V s' /\ measure s' < measure s).
Proof.
  intros Hs Ha. pose proof (searching_wg _ _ _ Hs) as Hwg.
  destruct Hs as [Hc Hd Hn Hp Hw Hsd Hcl Hop Hr].
  unfold step. rewrite Hc. red in Hn.
  destruct a as [| |i| |]; [done | | | |].
  - (* the loop starts a goroutine *)
    destruct (pending s) as [|line rest] eqn:Ep; [done|]. intros [= <-]. right.
    apply Forall_cons in Hp as [Hl Hp].
    split; [split; simpl; try done |].
    + red; simpl. rewrite total_app. simpl in *. lia.
    + apply Forall_app. split; [done|]. by apply Forall_singleton.
    + rewrite total_app. simpl in *. lia.
    + unfold measure; simpl. rewrite Ep, total_app. simpl. lia.
  - (* a goroutine moves *)
    destruct (workers s !! i) as [w|] eqn:Ei; [|done].
    pose proof (total_lookup_le live _ _ _ Ei) as Hle.
    rewrite Forall_lookup in Hw. pose proof (Hw _ _ Ei) as Hwi.
    destruct w as [line|v| |]; simpl in Hwi.
    + intros [= <-]. right. rewrite Hd. unfold select.
      assert (exists w', w' = match entry_value key line with
                              | Some v => WSend v | None => WDefer end
                         /\ live w' = 1 /\ worker_weight w' < 3
                         /\ may_send key w' = line_sends key line
                         /\ sends_only key V w') as (w' & <- & Hl1 & Hw3 & Hms & Hso).
      { eexists; split; [done|]. unfold line_sends.
        destruct (entry_value key line) as [v|] eqn:Ev; simpl; repeat split; try lia.
        by apply Hwi. }
      pose proof (total_insert live _ _ _ w' Ei) as Hl.
      pose proof (total_insert worker_weight _ _ _ w' Ei) as Hm.
      pose proof (total_insert (may_send key) _ _ _ w' Ei) as Hy.
      split; [split; simpl; try done |].
      * red; simpl. simpl in *. lia.
      * apply Forall_insert; [by apply Forall_lookup | done].
      * simpl in *. lia.
      * unfold measure; simpl. simpl in *. lia.
    + rewrite Hop, Hr. intros [= <-]. left. simpl. by rewrite Hwi.
    + pose proof (total_insert live _ _ _ WExit Ei) as Hl.
      pose proof (total_insert worker_weight _ _ _ WExit Ei) as Hm.
      pose proof (total_insert (may_send key) _ _ _ WExit Ei) as Hy.
      destruct (wg s) as [|n] eqn:En; simpl in *; [lia|].
      intros [= <-]. right.
      split; [split; simpl; try done |].
      * red; simpl. lia.
      * apply Forall_insert; [by apply Forall_lookup | done].
      * lia.
      * unfold measure; simpl. lia.
    + done.
  - (* the closing goroutine waits *)
    rewrite Hcl. destruct (wg s) as [|n]; [lia | done].
  - (* nothing to receive from an open channel *)
    by rewrite Hr, Hop.
Qed.

Lemma searching_returns key V a :
  searching key V (init a) -> returns no_cancel a key (V, true).
Proof.
  intros Hq. split.
  - revert Hq. generalize (init a). apply (eventually_by_measure _ measure).
    + apply searching_progress.
    + apply searching_step.
  - intros sched s r' Hs Hrun Hres.
    eapply (always_by_invariant key no_cancel (searching key V)); eauto.
    + apply s_result.
    + apply searching_step.
Qed.

(** *** The three outcomes of [LookupEnv] *)

Lemma malformed_cut line : has_eq line = false -> cut_eq line = None.
Proof.
  induction line as [|c rest IH]; simpl; [done|].
  intros [Hc Hr]%orb_false_iff. rewrite Hc, IH; done.
Qed.

Lemma other_entry_value key line :
  other_entry key line -> entry_value key line = None.
Proof.
  intros [Hm | Hk]; [|by apply entry_value_None].
  apply entry_value_None. unfold key_portion. by rewrite malformed_cut.
Qed.

Lemma quiet_init a key :
  (ContextDone a = true \/ Forall (other_entry key) (Environment a)) ->
  quiet key (init a).
Proof.
  intros H. split; simpl; try done.
  - red; simpl. lia.
  - destruct H as [-> | H]; [by apply Forall_true|].
    eapply Forall_impl; [exact H|]. intros line Hl. unfold select.
    rewrite (other_entry_value _ _ Hl). by destruct (ContextDone a).
Qed.

Lemma searching_init a key V :
  ContextDone a = false -> unique_entry key V (Environment a) ->
  searching key V (init a).
Proof.
  intros Hd (pre & line & post & Henv & Hcut & Hothers).
  apply Forall_app in Hothers as [Hpre Hpost].
  assert (forall l, key_portion l <> Some key -> line_value key V l) as Hnone.
  { intros l Hl v Hv. by rewrite entry_value_None in Hv. }
  assert (line_value key V line) as Hline.
  { intros v Hv. apply entry_value_Some in Hv. congruence. }
  split; simpl; try done.
  - red; simpl. lia.
  - rewrite Henv. apply Forall_app. split; [|apply Forall_cons; split]; try done.
    + eapply Forall_impl; [exact Hpre | exact Hnone].
    + eapply Forall_impl; [exact Hpost | exact Hnone].
  - rewrite Henv, total_app. simpl. unfold line_sends at 2.
    apply entry_value_Some in Hcut. rewrite Hcut. lia.
Qed.

(** C1. When exactly one entry of the environment has key portion [key],
    with value [V], and the context is not cancelled, [LookupEnv(key)]
    returns [(V, true)]: whatever the scheduler does, the caller's receive
    completes, and it yields [(V, true)]. *)
Theorem LookupEnv_unique_key (a : App) (key V : string) :
  ContextDone a = false ->
  unique_entry key V (Environment a) ->
  returns no_cancel a key (V, true).
Proof. intros Hd Hu. apply searching_returns. by apply searching_init. Qed.

Lemma LookupEnv_unique_key_witness :
  let a := test_app ["HOME=/home/test"; "PATH=/bin"; "TEST=true"] in
  ContextDone a = false /\
  unique_entry "PATH" "/bin" (Environment a) /\
  returns no_cancel a "PATH" ("/bin", true).
Proof.
  assert (unique_entry "PATH" "/bin"
            ["HOME=/home/test"; "PATH=/bin"; "TEST=true"]) as Hu.
  { exists ["HOME=/home/test"], "PATH=/bin", ["TEST=true"].
    repeat split; repeat constructor; discriminate. }
  split; [done | split; [exact Hu |]].
  apply (LookupEnv_unique_key (test_app _) "PATH" "/bin"); [done | exact Hu].
Defined.

(** C2. When every entry of the environment is malformed (no ['=']) or
    has a key portion other than [key] (the empty environment included),
    [LookupEnv(key)] returns [("", false)] under every schedule, cancelled
    or not; a malformed entry matches no key. *)
Theorem LookupEnv_missing_key (a : App) (key : string) :
  Forall (other_entry key) (Environment a) ->
  returns any_action a key ("", false) /\
  (forall line k, has_eq line = false -> entry_value k line = None).
Proof.
  intros H. split.
  - apply quiet_returns; [done|]. apply quiet_init. by right.
  - intros line k Hm. apply other_entry_value. by left.
Qed.

Lemma LookupEnv_missing_key_witness :
  let a := test_app ["HOME=/home/test"; "MISSING"; "TEST=true"] in
  Forall (other_entry "MISSING") (Environment a) /\
  returns any_action a "MISSING" ("", false) /\
  returns any_action (test_app []) "MISSING" ("", false).
Proof.
  assert (Forall (other_entry "MISSING")
            ["HOME=/home/test"; "MISSING"; "TEST=true"]) as Hu.
  { repeat (apply Forall_cons_2); [right | left | right | apply Forall_nil_2];
      done. }
  split; [exact Hu | split].
  - exact (proj1 (LookupEnv_missing_key (test_app _) "MISSING" Hu)).
  - exact (proj1 (LookupEnv_missing_key (test_app []) "MISSING"
                    (Forall_nil_2 _))).
Defined.

(** C3. When the context of the handle is already cancelled at the call,
    [LookupEnv(key)] returns [("", false)] under every schedule, whatever
    the environment holds. *)
Theorem LookupEnv_cancelled (a : App) (key : string) :
  ContextDone a = true ->
  returns any_action a key ("", false).
Proof. intros Hd. apply quiet_returns; [done|]. apply quiet_init. by left. Qed.

Lemma LookupEnv_cancelled_witness :
  let a := set_ContextDone true
             (test_app ["HOME=/home/test"; "PATH=/bin"; "TEST=true"]) in
  ContextDone a = true /\ returns any_action a "HOME" ("", false).
Proof.
  split; [done|].
  apply (LookupEnv_cancelled
           (set_ContextDone true
              (test_app ["HOME=/home/test"; "PATH=/bin"; "TEST=true"])) "HOME").
  done.
Defined.

End LookupEnvFacts.

(** ** The methods of the handle, called one after the other *)

Module HandleFacts.
Import Handle.

Ltac open_world w :=
  destruct w as [[args env done sin sout serr h lmu lg emu ech] bs cs evs ex];
  simpl in *.

Lemma HandleError_unused e w :
  unused_errch w ->
  exists w1,
    HandleError e w = (w1, Returned VUnit) /\
    handle w1 = set_errch (Some (errch_of w)) (handle w) /\
    chans w1 !! errch_of w = Some (mkChan 1 [e] true) /\
    bases w1 = bases w /\ events w1 = events w /\ exited w1 = exited w.
Proof.
  intros [Hmu Hch]. unfold errch_of. open_world w. subst emu.
  unfold HandleError, call. destruct ech as [c|]; simpl.
  - rewrite Hch. simpl. rewrite list_lookup_insert_eq
      by (by eapply lookup_lt_Some). simpl.
    eexists; split; [reflexivity|]. simpl. repeat split; try done.
    rewrite list_insert_insert_eq.
    apply list_lookup_insert_eq. by eapply lookup_lt_Some.
  - rewrite lookup_snoc. simpl. rewrite insert_snoc, lookup_snoc. simpl.
    eexists; split; [reflexivity|]. simpl. repeat split; try done.
    by rewrite insert_snoc, lookup_snoc.
Qed.

(** *** The fuel of [call] is enough *)

(** An upper bound on the actions a goroutine still takes from [p]. *)
Definition rank (p : pc) : nat :=
  match p with
  | L_lock => 7 | L_check => 6 | L_new => 5 | L_store _ => 4
  | L_init _ => 3 | L_load => 2 | L_unlock _ => 1
  | X_lock _ => 8 | X_check _ => 7 | X_isinit _ _ => 6
  | X_shutdown _ _ => 5 | X_clear _ => 4 | X_unlock _ => 3
  | X_handler _ => 2 | X_returned => 1
  | E_lock _ => 6 | E_check _ => 5 | E_make _ => 4 | E_unlock _ => 3
  | R_load => 1 | H_send _ => 2 | H_close => 1
  end.

Lemma step_pc_rank p w w' p' :
  step_pc p w = Some (w', Running p') -> rank p' < rank p.
Proof.
  destruct p; simpl; repeat case_match; intros; simplify_eq/=; lia.
Qed.

Lemma exec_to_fuel stop n n' p w :
  rank p <= n -> rank p <= n' -> exec_to stop n p w = exec_to stop n' p w.
Proof.
  revert n' p w; induction n as [|n IH]; intros [|n'] p w Hn Hn'; simpl;
    try (destruct p; simpl in *; lia).
  destruct (stop p); [done|].
  destruct (step_pc p w) as [[w' [p'| | |]]|] eqn:Es; try done.
  apply step_pc_rank in Es. apply IH; lia.
Qed.

Lemma rank_le p : rank p <= 8.
Proof. destruct p; simpl; lia. Qed.

(** More fuel changes nothing: a call ends, or blocks, within [call]. *)
Lemma call_enough n p w :
  8 <= n -> exec_to (fun _ => false) n p w = call p w.
Proof.
  intros Hn. pose proof (rank_le p). apply exec_to_fuel; lia.
Qed.

Lemma Errors_present w c :
  errchMu (handle w) = false -> errch (handle w) = Some c ->
  Errors w = (w, Returned (VChan (Some c))).
Proof. open_world w. by intros -> ->. Qed.

Lemma recv_value w c n e rest closed :
  chans w !! c = Some (mkChan n (e :: rest) closed) ->
  recv c w = Some (set_chans (<[c := mkChan n rest closed]> (chans w)) w,
                   (e, true)).
Proof. unfold recv. by intros ->. Qed.

Lemma recv_closed w c n :
  chans w !! c = Some (mkChan n [] true) ->
  recv c w = Some (w, (None, false)).
Proof. unfold recv. by intros ->. Qed.

Lemma HandleError_returned e w w1 :
  HandleError e w = (w1, Returned VUnit) -> closed_errch w1.
Proof.
  unfold HandleError, call, closed_errch. open_world w.
  destruct emu; simpl; [done|]. destruct ech as [c|]; simpl.
  - destruct (cs !! c) as [[n buf closed]|] eqn:Ec; simpl; [|done].
    destruct closed; simpl; [done|].
    destruct (length buf <? n)%nat; simpl; [|done].
    rewrite list_lookup_insert_eq by (by eapply lookup_lt_Some). simpl.
    intros [= <-]. simpl. split; [done|]. eexists _, _. split; [done|].
    rewrite list_insert_insert_eq.
    split; [apply list_lookup_insert_eq; by eapply lookup_lt_Some | done].
  - rewrite lookup_snoc. simpl. rewrite insert_snoc, lookup_snoc. simpl.
    intros [= <-]. simpl. split; [done|]. eexists _, _. split; [done|].
    rewrite insert_snoc, lookup_snoc. split; [reflexivity | done].
Qed.

Lemma HandleError_closed e w :
  closed_errch w ->
  HandleError e w = (w, Panicked "send on closed channel").
Proof.
  intros (Hmu & c & [n buf closed] & Hc & Hch & Hcl). open_world w.
  subst. unfold HandleError, call. simpl. by rewrite Hch.
Qed.

Lemma recv_keeps_closed c w w' r :
  recv c w = Some (w', r) -> closed_errch w -> closed_errch w'.
Proof.
  unfold recv, closed_errch. intros Hr (Hmu & c' & ch' & Hc & Hch & Hcl).
  destruct (chans w !! c) as [[n buf closed]|] eqn:Ec; [|done].
  simpl in Hr. destruct buf as [|e rest].
  - destruct closed; [|done]. simplify_eq. split; [done|]. by exists c', ch'.
  - simplify_eq. simpl. split; [done|]. destruct (decide (c = c')) as [->|Hne].
    + exists c', (mkChan n rest closed). split; [done|]. simplify_eq/=.
      split; [|done]. apply list_lookup_insert_eq. by eapply lookup_lt_Some.
    + exists c', ch'. split; [done|]. split; [|done].
      by rewrite list_lookup_insert_ne.
Qed.

Lemma drain_keeps_closed cs w : closed_errch w -> closed_errch (drain cs w).
Proof.
  revert w; induction cs as [|c cs IH]; intros w Hw; simpl; [done|].
  destruct (recv c w) as [[w' r]|] eqn:Er; [|by apply IH].
  apply IH. by eapply recv_keeps_closed.
Qed.

(** C6. Once a call of [HandleError] has returned, a second call, with
    any error and after any receives by readers, panics in its send; the
    channels are left as they were: the second error is neither delivered
    nor dropped in silence. *)
Theorem HandleError_twice (w w1 : World) (e1 e2 : error) (reads : list ptr) :
  HandleError e1 w = (w1, Returned VUnit) ->
  HandleError e2 (drain reads w1)
  = (drain reads w1, Panicked "send on closed channel").
Proof.
  intros H1. apply HandleError_closed, drain_keeps_closed.
  by eapply HandleError_returned.
Qed.

Lemma HandleError_twice_witness :
  let w := boot (test_app []) in
  let w1 := fst (HandleError (Some "test error") w) in
  HandleError (Some "test error") w = (w1, Returned VUnit) /\
  HandleError (Some "again") (drain [0] w1)
  = (drain [0] w1, Panicked "send on closed channel").
Proof.
  split; [reflexivity|].
  apply (HandleError_twice (boot (test_app [])) _ (Some "test error")).
  reflexivity.
Defined.

(** C10. On a handle whose error channel is unused, [HandleError(e)] run
    alone, with no reader, returns: the channel has capacity one and the
    send does not block.  A reader that calls [Errors()] afterwards
    receives [(e, true)] and then the result of a closed channel. *)
Theorem HandleError_needs_no_reader (w : World) (e : error) :
  unused_errch w ->
  exists w1 c w2,
    HandleError e w = (w1, Returned VUnit) /\
    (exists ch, chans w1 !! c = Some ch /\ chan_cap ch = 1) /\
    Errors w1 = (w1, Returned (VChan (Some c))) /\
    recv c w1 = Some (w2, (e, true)) /\
    recv c w2 = Some (w2, (None, false)).
Proof.
  intros Hw. destruct (HandleError_unused e w Hw)
    as (w1 & Hcall & Hh & Hch & _).
  exists w1, (errch_of w). eexists. split; [done|]. split; [by eexists|].
  split; [|split].
  - apply Errors_present; rewrite Hh; [apply Hw | done].
  - by apply (recv_value _ _ _ _ _ _ Hch).
  - eapply recv_closed. simpl. apply list_lookup_insert_eq.
    by eapply lookup_lt_Some.
Qed.

Lemma HandleError_needs_no_reader_witness :
  let w := boot (test_app []) in
  unused_errch w /\
  exists w1 c w2,
    HandleError (Some "test error") w = (w1, Returned VUnit) /\
    (exists ch, chans w1 !! c = Some ch /\ chan_cap ch = 1) /\
    Errors w1 = (w1, Returned (VChan (Some c))) /\
    recv c w1 = Some (w2, (Some "test error", true)) /\
    recv c w2 = Some (w2, (None, false)).
Proof.
  assert (unused_errch (boot (test_app []))) as Hw by done.
  split; [exact Hw|].
  exact (HandleError_needs_no_reader (boot (test_app [])) (Some "test error") Hw).
Defined.

(** *** Exit *)

Lemma Logger_first w :
  loggerMu (handle w) = false -> logger (handle w) = None ->
  exists w1,
    Logger w = (w1, Returned (VLogger (Some (length (bases w))))) /\
    made_by_Logger w1 (length (bases w)) /\
    loggerMu (handle w1) = false /\
    bases w1 = bases w ++ [logger_base (handle w)] /\
    events w1 = events w.
Proof.
  open_world w. intros -> ->. unfold Logger, call, made_by_Logger. simpl.
  rewrite lookup_snoc. simpl. eexists; split; [reflexivity|]. simpl.
  rewrite insert_snoc, lookup_snoc. done.
Qed.

Lemma Logger_again w p :
  loggerMu (handle w) = false -> logger (handle w) = Some p ->
  Logger w = (w, Returned (VLogger (Some p))).
Proof. open_world w. by intros -> ->. Qed.


(** [Exit] is its teardown followed by the call of the handler. *)
Lemma Exit_split code w w1 :
  Exit_teardown code w = (w1, Running (X_handler code)) ->
  Exit code w = call (X_handler code) w1.
Proof.
  unfold Exit_teardown, Exit. unfold call at 1. open_world w.
  destruct lmu; simpl; [done|].
  destruct lg as [p|]; simpl.
  - destruct (bs !! p) as [b|] eqn:Eb; simpl; [|done].
    destruct (gomol.isInitialized b); simpl.
    + rewrite Eb. destruct (gomol.ShutdownLoggers b) as [b' [msg|]]; simpl;
        [done|]. intros [= <-]. unfold call; simpl.
      destruct h as [f|]; [destruct (f code)|]; done.
    + intros [= <-]. unfold call; simpl.
      destruct h as [f|]; [destruct (f code)|]; done.
  - intros [= <-]. unfold call; simpl.
    destruct h as [f|]; [destruct (f code)|]; done.
Qed.

Lemma call_handler code w h :
  ExitHandler (handle w) = Some h ->
  call (X_handler code) w =
  match h code with
  | HReturns => (log_event (EvExitHandler code) w, Panicked "exit handler returned")
  | HPanics msg => (log_event (EvExitHandler code) w, Panicked msg)
  | HTerminates => (terminate (log_event (EvExitHandler code) w), Gone)
  end.
Proof. unfold call. simpl. intros ->. by destruct (h code). Qed.

Lemma call_handler_called code w h :
  ExitHandler (handle w) = Some h ->
  call (X_handler code) w = handler_called code (h code) w.
Proof. intros Hh. by rewrite (call_handler _ _ _ Hh). Qed.

Lemma Exit_teardown_no_logger code w :
  loggerMu (handle w) = false -> logger (handle w) = None ->
  Exit_teardown code w = (w, Running (X_handler code)).
Proof. open_world w. by intros -> ->. Qed.

Lemma Exit_teardown_sound code w p :
  loggerMu (handle w) = false -> logger (handle w) = Some p -> sound_logger w ->
  exists w1,
    Exit_teardown code w = (w1, Running (X_handler code)) /\
    handle w1 = set_logger None (handle w) /\
    chans w1 = chans w /\ exited w1 = exited w /\
    exists b, bases w !! p = Some b /\
      if gomol.isInitialized b
      then events w1 = events w ++ [EvShutdown p] /\
           bases w1 = <[p := fst (gomol.ShutdownLoggers b)]> (bases w) /\
           gomol.isInitialized (fst (gomol.ShutdownLoggers b)) = false
      else events w1 = events w /\ bases w1 = bases w.
Proof.
  unfold sound_logger, Exit_teardown. open_world w. intros -> -> (b & Hb & Hs).
  simpl. rewrite Hb. simpl.
  destruct (gomol.isInitialized b) eqn:Ei; simpl.
  - rewrite ?Hb. simpl. specialize (Hs eq_refl).
    unfold gomol.ShutdownLoggers in *.
    destruct (gomol.first_error gomol.ShutdownLogger (gomol.loggers b))
      eqn:Ef; simpl in *; [done|].
    eexists; split; [reflexivity|]. simpl. repeat split; try done.
    exists b. rewrite Ei. unfold gomol.ShutdownLoggers. rewrite Ef. done.
  - eexists; split; [reflexivity|]. simpl. repeat split; try done.
    exists b. rewrite Ei. done.
Qed.

(** When the shutdown fails, [Exit] panics with the error: the handler
    is not called and [loggerMu] stays locked. *)
Lemma Exit_shutdown_fails code w p b msg :
  loggerMu (handle w) = false -> logger (handle w) = Some p ->
  bases w !! p = Some b -> gomol.isInitialized b = true ->
  snd (gomol.ShutdownLoggers b) = Some msg ->
  snd (Exit code w) = Panicked msg /\
  events (fst (Exit code w)) = events w ++ [EvShutdown p] /\
  loggerMu (handle (fst (Exit code w))) = true.
Proof.
  unfold Exit, call. open_world w. intros -> -> Hb Hi Hs. simpl.
  rewrite Hb. simpl. rewrite Hi. simpl. rewrite Hb.
  destruct (gomol.ShutdownLoggers b) as [b' err]. simpl in Hs. by subst err.
Qed.



(** C8. On a handle with a configured exit handler that hands control
    back for [code], [Exit(code)] calls the handler and then panics with
    "exit handler returned". *)
Theorem Exit_handler_returns (w : World) (code : Z) (h : Z -> handler_outcome) :
  loggerMu (handle w) = false ->
  sound_logger w ->
  ExitHandler (handle w) = Some h ->
  h code = HReturns ->
  snd (Exit code w) = Panicked "exit handler returned" /\
  last (events (fst (Exit code w))) = Some (EvExitHandler code).
Proof.
  intros Hmu Hs Hh Hret.
  assert (exists w1, Exit_teardown code w = (w1, Running (X_handler code)) /\
                     ExitHandler (handle w1) = Some h) as (w1 & Ht & Hh1).
  { destruct (logger (handle w)) as [p|] eqn:Hl.
    - destruct (Exit_teardown_sound code w p Hmu Hl Hs) as (w1 & Ht & Hh1 & _).
      exists w1. split; [done|]. by rewrite Hh1.
    - exists w. split; [|done]. by apply Exit_teardown_no_logger. }
  rewrite (Exit_split _ _ _ Ht), (call_handler _ _ _ Hh1), Hret. simpl.
  split; [done|]. by rewrite last_snoc.
Qed.

Lemma Exit_handler_returns_witness :
  let a := new_handle [] [] false 10 11 12 (Some (fun _ => HReturns)) in
  let w := fst (Logger (boot a)) in
  loggerMu (handle w) = false /\ sound_logger w /\
  snd (Exit 255 w) = Panicked "exit handler returned" /\
  last (events (fst (Exit 255 w))) = Some (EvExitHandler 255%Z).
Proof.
  assert (sound_logger
            (fst (Logger (boot (new_handle [] [] false 10 11 12
                                  (Some (fun _ => HReturns))))))) as Hs.
  { red. simpl. by eexists. }
  split; [reflexivity|]. split; [exact Hs|].
  apply (Exit_handler_returns _ 255 (fun _ => HReturns)); done.
Defined.

(** *** The inputs of the handle *)

Lemma same_inputs_refl a : same_inputs a a.
Proof. done. Qed.

Lemma same_inputs_trans a b c :
  same_inputs a b -> same_inputs b c -> same_inputs a c.
Proof. intros [? ?] [? ?]. split; congruence. Qed.

Lemma step_pc_inputs p w :
  match step_pc p w with
  | Some (w', _) => same_inputs (handle w) (handle w')
  | None => True
  end.
Proof.
  destruct p; simpl; repeat case_match; simplify_eq/=; done.
Qed.

Lemma recv_inputs c w :
  match recv c w with
  | Some (w', _) => same_inputs (handle w) (handle w')
  | None => True
  end.
Proof. unfold recv. repeat case_match; simplify_eq/=; done. Qed.

Lemma exec_to_inputs stop fuel p w :
  same_inputs (handle w) (handle (fst (exec_to stop fuel p w))).
Proof.
  revert p w; induction fuel as [|fuel IH]; intros p w; simpl.
  - by destruct (stop p).
  - destruct (stop p); [done|]. pose proof (step_pc_inputs p w) as Hs.
    destruct (step_pc p w) as [[w' t]|]; [|done].
    destruct t; try done. eapply same_inputs_trans; [exact Hs | apply IH].
Qed.

Lemma pool_step_inputs x m :
  match pool_step x m with
  | Some m' => same_inputs (handle (world m)) (handle (world m'))
  | None => True
  end.
Proof.
  unfold pool_step. destruct (exited (world m)); [done|]. destruct x as [i|c].
  - destruct (threads m !! i) as [[p| | |]|]; try done.
    pose proof (step_pc_inputs p (world m)) as Hs.
    by destruct (step_pc p (world m)) as [[w' t]|].
  - pose proof (recv_inputs c (world m)) as Hs.
    by destruct (recv c (world m)) as [[w' r]|].
Qed.

Lemma lookup_step_inputs key x s :
  match LookupEnv.step key x s with
  | Some s' => same_inputs (LookupEnv.app s) (LookupEnv.app s')
  | None => True
  end.
Proof.
  unfold LookupEnv.step. repeat case_match; simplify_eq/=; done.
Qed.

Lemma run_inputs {S A} (next : A -> S -> option S) (get : S -> App) :
  (forall x s, match next x s with
               | Some s' => same_inputs (get s) (get s')
               | None => True
               end) ->
  forall sched s, match run next sched s with
                  | Some s' => same_inputs (get s) (get s')
                  | None => True
                  end.
Proof.
  intros Hstep sched. induction sched as [|x sched IH]; intros s; simpl; [done|].
  specialize (Hstep x s). destruct (next x s) as [s1|]; [|done].
  specialize (IH s1). destruct (run next sched s1) as [s2|]; [|done].
  by eapply same_inputs_trans.
Qed.

(** C9. No operation of the handle writes [Arguments] or [Environment]:
    they are the same after every atomic pool_action of [Logger], [Errors],
    [HandleError] and [Exit], after each of these methods run alone,
    after every schedule of goroutines calling them, and after every
    schedule of the goroutines of [LookupEnv], which starts from the
    handle as it is. *)
Theorem inputs_never_change :
  (forall p w, match step_pc p w with
               | Some (w', _) => same_inputs (handle w) (handle w')
               | None => True
               end) /\
  (forall w code err,
     same_inputs (handle w) (handle (fst (Logger w))) /\
     same_inputs (handle w) (handle (fst (Errors w))) /\
     same_inputs (handle w) (handle (fst (HandleError err w))) /\
     same_inputs (handle w) (handle (fst (Exit code w)))) /\
  (forall sched m, match run pool_step sched m with
                   | Some m' => same_inputs (handle (world m)) (handle (world m'))
                   | None => True
                   end) /\
  (forall a key sched,
     LookupEnv.app (LookupEnv.init a) = a /\
     match run (LookupEnv.step key) sched (LookupEnv.init a) with
     | Some s' => same_inputs a (LookupEnv.app s')
     | None => True
     end).
Proof.
  split; [exact step_pc_inputs|]. split; [|split].
  - intros w code err. repeat split; apply exec_to_inputs.
  - apply (run_inputs pool_step (fun m => handle (world m))). exact pool_step_inputs.
  - intros a key sched. split; [done|].
    apply (run_inputs (LookupEnv.step key) LookupEnv.app).
    apply lookup_step_inputs.
Qed.

End HandleFacts.

(** ** Goroutines that call [Logger()] concurrently *)

Module LoggerFacts.
Import Handle.

Lemma total_le_lookup {A} (f g : A -> nat) (l : list A) i x :
  (forall y, g y <= f y) -> l !! i = Some x ->
  total g l + f x <= total f l + g x.
Proof.
  intros Hgf. revert i; induction l as [|z l IH]; intros [|i] Hi; simplify_eq/=.
  - pose proof (total_le g f l Hgf). lia.
  - specialize (IH _ Hi). specialize (Hgf z). lia.
Qed.

(** Goroutines between [Lock] and [Unlock] of [loggerMu]. *)
Definition in_logger_cs (t : thread) : nat :=
  match t with
  | Running (L_check | L_new | L_store _ | L_init _ | L_load | L_unlock _) => 1
  | _ => 0
  end.

(** Goroutines that hold a new base and have not stored it yet. *)
Definition at_store (t : thread) : nat :=
  match t with
  | Running (L_store _) => 1
  | _ => 0
  end.

Definition logger_weight (t : thread) : nat :=
  match t with
  | Running L_lock => 7
  | Running L_check => 6
  | Running L_new => 5
  | Running (L_store _) => 4
  | Running (L_init _) => 3
  | Running L_load => 2
  | Running (L_unlock _) => 1
  | _ => 0
  end.

(** What a caller of [Logger()] knows at each program point, when [n0]
    bases existed at the start and [lg] is the logger field now. *)
Definition logger_thread (n0 : nat) (lg : option ptr) (t : thread) : Prop :=
  match t with
  | Running L_lock | Running L_check => True
  | Running L_new => lg = None
  | Running (L_store p) => lg = None /\ p = n0
  | Running (L_init p) => lg = Some n0 /\ p = n0
  | Running L_load => lg = Some n0
  | Running (L_unlock r) => lg = Some n0 /\ r = Some n0
  | Returned (VLogger r) => lg = Some n0 /\ r = Some n0
  | _ => False
  end.

Record logger_inv (n0 : nat) (m : Pool) : Prop := {
  li_exited : exited (world m) = false;
  li_mutex :
    total in_logger_cs (threads m) = if loggerMu (handle (world m)) then 1 else 0;
  li_threads :
    Forall (logger_thread n0 (logger (handle (world m)))) (threads m);
  li_logger : forall p, logger (handle (world m)) = Some p -> p = n0;
  li_bases :
    length (bases (world m))
    = n0 + (match logger (handle (world m)) with Some _ => 1 | None => 0 end)
      + total at_store (threads m)
}.

Lemma at_store_le_cs t : at_store t <= in_logger_cs t.
Proof. destruct t as [[]| | |]; simpl; lia. Qed.

Lemma outside_cs_store n0 t :
  in_logger_cs t = 0 -> logger_thread n0 None t -> logger_thread n0 (Some n0) t.
Proof. destruct t as [[]| [] | |]; simpl; try done; naive_solver. Qed.

Lemma logger_step n0 x m m' :
  logger_inv n0 m -> pool_step x m = Some m' ->
  logger_inv n0 m' /\ length (threads m') = length (threads m) /\
  (is_step x = true -> total logger_weight (threads m') < total logger_weight (threads m)).
Proof.
  intros [Hex Hmu Hth Hlg Hbs]. unfold pool_step. rewrite Hex.
  destruct m as [w ths]; simpl in *. destruct x as [i|c].
  - destruct (ths !! i) as [t|] eqn:Ei; [|done].
    destruct t as [p| | |]; try done.
    pose proof (proj1 (Forall_lookup _ _) Hth i _ Ei) as Hp.
    pose proof (total_lookup_le in_logger_cs _ _ _ Ei) as Hcs.
    pose proof (total_le_lookup in_logger_cs at_store _ _ _ at_store_le_cs Ei) as Hat.
    assert (forall t', total in_logger_cs (<[i:=t']> ths) + in_logger_cs (Running p)
                       = total in_logger_cs ths + in_logger_cs t') as Hi1
      by (intros; by apply total_insert).
    assert (forall t', total at_store (<[i:=t']> ths) + at_store (Running p)
                       = total at_store ths + at_store t') as Hi2
      by (intros; by apply total_insert).
    assert (forall t', total logger_weight (<[i:=t']> ths) + logger_weight (Running p)
                       = total logger_weight ths + logger_weight t') as Hi3
      by (intros; by apply total_insert).
    assert (forall t', logger_thread n0 (logger (handle w)) t' ->
              Forall (logger_thread n0 (logger (handle w))) (<[i:=t']> ths))
      as Hins by (intros; by apply Forall_insert).
    assert (total in_logger_cs ths <= 1) as Hone
      by (destruct (loggerMu (handle w)); lia).
    destruct p; simpl in Hp; try done; destruct_and?; subst; simpl;
      repeat match goal with
             | |- context [match ?x with _ => _ end] =>
                 lazymatch x with
                 | loggerMu _ => destruct x eqn:?
                 | logger _ => destruct x eqn:?
                 | _ !! _ => destruct x eqn:?
                 end
             end;
      try done; intros [= <-];
      match goal with
      | |- context [<[i:=?t']> ths] =>
          specialize (Hi1 t'); specialize (Hi2 t'); specialize (Hi3 t');
          specialize (Hins t')
      end;
      simpl in *;
      (split; [split; simpl | rewrite length_insert; split; [done | lia]]);
      rewrite ?length_insert, ?length_app; simpl;
      try match goal with H : logger (handle w) = _ |- _ => rewrite H in * end;
      try done; try lia; try (apply Hins; naive_solver lia);
      try (by intros ? [= <-]);
      try (exfalso;
           repeat match goal with
                  | H : _ !! _ = None |- _ => apply lookup_ge_None in H
                  end; lia).
    + (* a.logger = logger *)
      apply Forall_lookup. intros j t Hj.
      destruct (decide (j = i)) as [->|Hne].
      * rewrite list_lookup_insert_eq in Hj by (by eapply lookup_lt_Some).
        by simplify_eq.
      * rewrite list_lookup_insert_ne in Hj by done.
        apply outside_cs_store.
        -- destruct (decide (0 < in_logger_cs t)) as [Hpos|]; [|lia].
           exfalso. apply Hne.
           eapply (total_le_one_unique in_logger_cs ths j i); eauto.
        -- by apply (proj1 (Forall_lookup _ _) Hth j).
  - (* a reader receives *)
    unfold recv. destruct (chans w !! c) as [[n buf closed]|]; [|done]. simpl.
    destruct buf as [|e rest]; [destruct closed; [|done] |];
      intros [= <-]; simpl; (split; [by split | split; [done | done]]).
Qed.

Lemma logger_progress n0 m :
  logger_inv n0 m -> 0 < total logger_weight (threads m) ->
  exists x m', is_step x = true /\ pool_step x m = Some m'.
Proof.
  intros [Hex Hmu Hth Hlg Hbs] Hw. unfold pool_step. rewrite Hex.
  destruct m as [w ths]; simpl in *.
  destruct (loggerMu (handle w)) eqn:El.
  - assert (0 < total in_logger_cs ths) as Hcs by lia.
    destruct (total_pos in_logger_cs _ Hcs) as (i & t & Hi & Ht).
    exists (Step i). rewrite Hi.
    destruct t as [[]| | |]; simpl in Ht; try lia; simpl; rewrite ?El;
      repeat case_match; simplify_eq; eauto.
  - destruct (total_pos logger_weight _ Hw) as (i & t & Hi & Ht).
    pose proof (total_lookup_le in_logger_cs _ _ _ Hi) as Hle.
    exists (Step i). rewrite Hi.
    destruct t as [[]| | |]; simpl in Ht, Hle; try lia. simpl. rewrite El. eauto.
Qed.

(** Every caller has returned the logger made first. *)
Definition all_returned (n0 n : nat) (m : Pool) : Prop :=
  threads m = replicate n (Returned (VLogger (Some n0))) /\
  (0 < n -> logger (handle (world m)) = Some n0 /\
            length (bases (world m)) = S n0).

Lemma logger_at_store n0 m :
  logger_inv n0 m ->
  match logger (handle (world m)) with
  | Some _ => total at_store (threads m) = 0
  | None => True
  end.
Proof.
  intros [_ _ Hth _ _]. destruct (logger (handle (world m))) as [p|]; [|done].
  destruct (decide (0 < total at_store (threads m))) as [Hpos|]; [|lia].
  destruct (total_pos at_store _ Hpos) as (i & t & Hi & Ht).
  pose proof (proj1 (Forall_lookup _ _) Hth i _ Hi) as Hp.
  destruct t as [[]| | |]; simpl in *; try lia. naive_solver.
Qed.

Lemma logger_done n0 m :
  logger_inv n0 m -> total logger_weight (threads m) = 0 ->
  all_returned n0 (length (threads m)) m.
Proof.
  intros Hinv Hw. pose proof (logger_at_store _ _ Hinv) as Hst.
  destruct Hinv as [_ _ Hth _ Hbs].
  assert (Forall (fun t => Returned (VLogger (Some n0)) = t) (threads m)) as Hall.
  { apply Forall_lookup. intros i t Hi.
    pose proof (proj1 (Forall_lookup _ _) Hth i _ Hi) as Hp.
    pose proof (total_lookup_le logger_weight _ _ _ Hi) as Hle.
    destruct t as [[]| [] | |]; simpl in *; try done; try lia.
    by destruct Hp as [_ ->]. }
  split.
  - symmetry. by apply replicate_as_Forall.
  - intros Hn. destruct (threads m) as [|t ths] eqn:Et; [simpl in Hn; lia|].
    apply Forall_cons in Hall as [<- _]. apply Forall_cons in Hth as [Ht _].
    simpl in Ht. destruct Ht as [Hl _]. rewrite Hl in *. split; [done|]. lia.
Qed.

Lemma logger_init w0 n :
  exited w0 = false -> loggerMu (handle w0) = false ->
  logger (handle w0) = None ->
  logger_inv (length (bases w0)) (mkPool w0 (replicate n (Running L_lock))).
Proof.
  intros Hex Hmu Hlg. split; simpl; try done.
  - by rewrite total_replicate, Hmu, Nat.mul_0_r.
  - by apply Forall_replicate.
  - by rewrite Hlg.
  - rewrite total_replicate, Hlg. simpl. lia.
Qed.

(** C4. From a handle without logger, let [n] goroutines call
    [Logger()] concurrently.  Under every schedule, at every moment, at
    most one base has been made since the start, and every call that has
    returned has returned the same reference, the one stored in the
    handle.  Moreover every call returns: all [n] callers end with that
    one reference, and exactly one base was made for them. *)
Theorem Logger_shared (w0 : World) (n : nat) :
  exited w0 = false ->
  loggerMu (handle w0) = false ->
  logger (handle w0) = None ->
  let m0 := mkPool w0 (replicate n (Running L_lock)) in
  let made := Some (length (bases w0)) in
  (forall sched m,
     run pool_step sched m0 = Some m ->
     length (bases (world m)) <= S (length (bases w0)) /\
     forall i v, threads m !! i = Some (Returned v) ->
                 v = VLogger made /\ logger (handle (world m)) = made) /\
  eventually pool_step is_step
    (fun m => threads m = replicate n (Returned (VLogger made)) /\
              (0 < n -> logger (handle (world m)) = made /\
                        length (bases (world m)) = S (length (bases w0))))
    m0.
Proof.
  intros Hex Hmu Hlg m0 made. subst m0 made. set (n0 := length (bases w0)).
  pose proof (logger_init w0 n Hex Hmu Hlg) as Hinit. fold n0 in Hinit.
  set (m0 := mkPool w0 (replicate n (Running L_lock))) in *.
  assert (length (threads m0) = n) as Hlen0 by apply length_replicate.
  split.
  - intros sched m Hrun.
    assert (logger_inv n0 m) as Hinv.
    { eapply (run_invariant pool_step (logger_inv n0)); [|exact Hinit|exact Hrun].
      intros x s s' Hs Hstep. by destruct (logger_step _ _ _ _ Hs Hstep). }
    pose proof (logger_at_store _ _ Hinv) as Hst.
    destruct Hinv as [_ Hcs Hth _ Hbs]. split.
    + destruct (logger (handle (world m))); [lia|].
      pose proof (total_le at_store in_logger_cs (threads m) at_store_le_cs).
      destruct (loggerMu (handle (world m))); lia.
    + intros i v Hi. pose proof (proj1 (Forall_lookup _ _) Hth i _ Hi) as Hp.
      destruct v; simpl in Hp; try done. by destruct Hp as [-> ->].
  - destruct (decide (0 < total logger_weight (threads m0))) as [Hpos | Hzero].
    + apply (eventually_by_measure pool_step (fun m => total logger_weight (threads m))
               is_step _
               (fun m => logger_inv n0 m /\ length (threads m) = n /\
                         0 < total logger_weight (threads m))).
      * intros s (Hs & _ & Hw). by eapply logger_progress.
      * intros s x s' (Hs & Hlen & Hw) Hx Hstep.
        destruct (logger_step _ _ _ _ Hs Hstep) as (Hs' & Hlen' & Hdec).
        destruct (decide (0 < total logger_weight (threads s'))) as [Hpos' | Hz'].
        -- right. split; [|by apply Hdec]. split; [done|]. split; [lia|done].
        -- left. assert (total logger_weight (threads s') = 0) as Hz by lia.
           destruct (logger_done _ _ Hs' Hz) as [Hall Hn].
           rewrite Hlen', Hlen in Hall, Hn. done.
      * split; [exact Hinit|]. split; done.
    + apply ev_now. assert (total logger_weight (threads m0) = 0) as Hz by lia.
      destruct (logger_done _ _ Hinit Hz) as [Hall Hn].
      rewrite Hlen0 in Hall, Hn. done.
Qed.

Lemma Logger_shared_witness :
  let w0 := boot (test_app []) in
  let m0 := mkPool w0 (replicate 3 (Running L_lock)) in
  (forall sched m,
     run pool_step sched m0 = Some m ->
     length (bases (world m)) <= 1 /\
     forall i v, threads m !! i = Some (Returned v) ->
                 v = VLogger (Some 0) /\
                 logger (handle (world m)) = Some 0) /\
  eventually pool_step is_step
    (fun m => threads m = replicate 3 (Returned (VLogger (Some 0))) /\
              (0 < 3 -> logger (handle (world m)) = Some 0 /\
                        length (bases (world m)) = 1))
    m0.
Proof.
  exact (Logger_shared (boot (test_app [])) 3 eq_refl eq_refl eq_refl).
Defined.

End LoggerFacts.

(** ** Goroutines that call [Errors()] and [HandleError] concurrently *)

Module ErrorsFacts.
Import Handle.

Lemma received_app c evs1 evs2 :
  received c (evs1 ++ evs2) = received c evs1 ++ received c evs2.
Proof.
  induction evs1 as [|ev evs1 IH]; simpl; [done|].
  destruct ev; try done. destruct (Nat.eqb c0 c); simpl; by rewrite IH.
Qed.

(** Goroutines between [Lock] and [Unlock] of [errchMu]. *)
Definition in_errch_cs (t : thread) : nat :=
  match t with
  | Running (E_check _ | E_make _ | E_unlock _) => 1
  | _ => 0
  end.

Definition errch_weight (t : thread) : nat :=
  match t with
  | Running (E_lock _) => 6
  | Running (E_check _) => 5
  | Running (E_make _) => 4
  | Running (E_unlock _) => 3
  | Running (H_send _) => 2
  | Running R_load | Running H_close => 1
  | _ => 0
  end.

(** What a caller of [ensureErrorChannel] knows at each program point,
    when [c0] channels existed at the start and [ech] is the channel
    field now. *)
Definition errch_thread (c0 : nat) (ech : option ptr) (t : thread) : Prop :=
  match t with
  | Running (E_lock _) | Running (E_check _) => True
  | Running (E_make _) => ech = None
  | Running (E_unlock _) | Running R_load
  | Running (H_send _) | Running H_close | Returned VUnit => ech = Some c0
  | Returned (VChan r) => ech = Some c0 /\ r = Some c0
  | Panicked _ => True
  | _ => False
  end.

Record errch_core (c0 : nat) (m : Pool) : Prop := {
  ec_exited : exited (world m) = false;
  ec_mutex :
    total in_errch_cs (threads m) = if errchMu (handle (world m)) then 1 else 0;
  ec_threads :
    Forall (errch_thread c0 (errch (handle (world m)))) (threads m);
  ec_errch : forall c, errch (handle (world m)) = Some c -> c = c0;
  ec_chans :
    length (chans (world m))
    = c0 + match errch (handle (world m)) with Some _ => 1 | None => 0 end
}.

Lemma outside_cs_make c0 t :
  in_errch_cs t = 0 -> errch_thread c0 None t -> errch_thread c0 (Some c0) t.
Proof. destruct t as [[]| [] | |]; simpl; try done; naive_solver. Qed.

Lemma recv_length c w w' r :
  recv c w = Some (w', r) ->
  handle w' = handle w /\ exited w' = exited w /\
  length (chans w') = length (chans w).
Proof.
  unfold recv. destruct (chans w !! c) as [[n buf closed]|]; [|done]. simpl.
  destruct buf as [|e rest]; [destruct closed; [|done] |];
    intros [= <- <-]; simpl; rewrite ?length_insert; done.
Qed.

Lemma core_step c0 x m m' :
  errch_core c0 m -> pool_step x m = Some m' ->
  errch_core c0 m' /\ length (threads m') = length (threads m) /\
  (is_step x = true -> total errch_weight (threads m') < total errch_weight (threads m)).
Proof.
  intros [Hex Hmu Hth Hlg Hbs]. unfold pool_step. rewrite Hex.
  destruct m as [w ths]; simpl in *. destruct x as [i|c].
  - destruct (ths !! i) as [t|] eqn:Ei; [|done].
    destruct t as [p| | |]; try done.
    pose proof (proj1 (Forall_lookup _ _) Hth i _ Ei) as Hp.
    pose proof (total_lookup_le in_errch_cs _ _ _ Ei) as Hcs.
    assert (forall t', total in_errch_cs (<[i:=t']> ths) + in_errch_cs (Running p)
                       = total in_errch_cs ths + in_errch_cs t') as Hi1
      by (intros; by apply total_insert).
    assert (forall t', total errch_weight (<[i:=t']> ths) + errch_weight (Running p)
                       = total errch_weight ths + errch_weight t') as Hi3
      by (intros; by apply total_insert).
    assert (forall t', errch_thread c0 (errch (handle w)) t' ->
              Forall (errch_thread c0 (errch (handle w))) (<[i:=t']> ths))
      as Hins by (intros; by apply Forall_insert).
    assert (total in_errch_cs ths <= 1) as Hone
      by (destruct (errchMu (handle w)); lia).
    destruct p; simpl in Hp; try done; simpl;
      repeat match goal with
             | |- context [match ?x with _ => _ end] =>
                 lazymatch x with
                 | errchMu _ => destruct x eqn:?
                 | errch _ => destruct x eqn:?
                 | _ !! _ => destruct x eqn:?
                 | chan_closed _ => destruct x eqn:?
                 | Nat.ltb _ _ => destruct x eqn:?
                 | _ => is_var x; destruct x
                 end
             end;
      try done; intros [= <-];
      match goal with
      | |- context [<[i:=?t']> ths] =>
          specialize (Hi1 t'); specialize (Hi3 t'); specialize (Hins t')
      end;
      simpl in *;
      (split; [split; simpl | rewrite length_insert; split; [done | lia]]);
      rewrite ?length_insert, ?length_app; simpl;
      try match goal with H : errch (handle w) = _ |- _ => rewrite H in * end;
      try done; try lia; try (apply Hins; naive_solver lia);
      try (by intros ? [= <-]);
      try (exfalso; lia).
    + (* a.errch = make(chan error, 1) *)
      apply Forall_lookup. intros j t Hj.
      destruct (decide (j = i)) as [->|Hne].
      * rewrite list_lookup_insert_eq in Hj by (by eapply lookup_lt_Some).
        simplify_eq. simpl. f_equal. lia.
      * rewrite list_lookup_insert_ne in Hj by done.
        replace (length (chans w)) with c0 by lia.
        apply outside_cs_make.
        -- destruct (decide (0 < in_errch_cs t)) as [Hpos|]; [|lia].
           exfalso. apply Hne.
           eapply (total_le_one_unique in_errch_cs ths j i); eauto.
        -- by apply (proj1 (Forall_lookup _ _) Hth j).
    + intros c [= <-]. lia.
  - (* a reader receives *)
    destruct (recv c w) as [[w' r]|] eqn:Er; [|done]. intros [= <-]. simpl.
    destruct (recv_length _ _ _ _ Er) as (Hh & Hx & Hl).
    split; [split; simpl; rewrite ?Hh, ?Hx, ?Hl; done | done].
Qed.

(** *** One [HandleError] among callers of [Errors()] *)

Definition is_reader (t : thread) : Prop :=
  match t with
  | Running (E_lock FromErrors | E_check FromErrors | E_make FromErrors
            | E_unlock FromErrors | R_load) => True
  | Returned (VChan _) => True
  | _ => False
  end.

Definition is_handler (e : error) (t : thread) : Prop :=
  match t with
  | Running (E_lock (FromHandleError e') | E_check (FromHandleError e')
            | E_make (FromHandleError e') | E_unlock (FromHandleError e')
            | H_send e') => e' = e
  | Running H_close | Returned VUnit => True
  | _ => False
  end.

(** How far [HandleError] is: before its send, between send and close,
    or after the close. *)
Definition stage (t : thread) : nat :=
  match t with
  | Running H_close => 1
  | Returned VUnit => 2
  | _ => 0
  end.

(** The one error is in the buffer, or was received; after it only the
    answers of a closed channel follow. *)
Definition chan_state (e : error) (stg : nat) (ch : Chan)
    (rcv : list (error * bool)) : Prop :=
  chan_cap ch = 1 /\
  match stg with
  | 0 => chan_buf ch = [] /\ chan_closed ch = false /\ rcv = []
  | 1 => chan_closed ch = false /\
         ((chan_buf ch = [e] /\ rcv = []) \/
          (chan_buf ch = [] /\ rcv = [(e, true)]))
  | _ => chan_closed ch = true /\
         ((chan_buf ch = [e] /\ rcv = []) \/
          (chan_buf ch = [] /\
           exists k, rcv = (e, true) :: replicate k (None, false)))
  end.

Definition chan_inv (e : error) (c0 : nat) (w : World) (stg : nat) : Prop :=
  match errch (handle w) with
  | None => stg = 0 /\ received c0 (events w) = []
  | Some _ =>
      exists ch, chans w !! c0 = Some ch /\
                 chan_state e stg ch (received c0 (events w))
  end.

Record errch_inv (e : error) (c0 : nat) (m : Pool) : Prop := {
  ei_core : errch_core c0 m;
  ei_roles :
    exists t0 rest,
      threads m = t0 :: rest /\ is_handler e t0 /\ Forall is_reader rest /\
      chan_inv e c0 (world m) (stage t0)
}.

Lemma core_in_cs c0 w ths i p :
  errch_core c0 (mkPool w ths) -> ths !! i = Some (Running p) ->
  in_errch_cs (Running p) = 1 -> errchMu (handle w) = true.
Proof.
  intros [_ Hmu _ _ _] Hi Hp. simpl in Hmu.
  pose proof (total_lookup_le in_errch_cs _ _ _ Hi) as Hle.
  destruct (errchMu (handle w)); [done | lia].
Qed.

Lemma chan_inv_make e c0 w :
  length (chans w) = c0 -> chan_inv e c0 w 0 ->
  errch (handle w) = None ->
  chan_inv e c0
    (set_handle (set_errch (Some c0) (handle w))
       (set_chans (chans w ++ [mkChan 1 [] false]) w)) 0.
Proof.
  unfold chan_inv. intros Hlen Hc Hn. rewrite Hn in Hc. destruct Hc as [_ Hr].
  simpl. exists (mkChan 1 [] false). split; [by rewrite <- Hlen, lookup_snoc|].
  by rewrite Hr.
Qed.

Lemma reader_step e c0 w ths i p w' t' stg :
  errch_core c0 (mkPool w ths) -> ths !! i = Some (Running p) ->
  is_reader (Running p) -> chan_inv e c0 w stg ->
  step_pc p w = Some (w', t') ->
  is_reader t' /\ chan_inv e c0 w' stg.
Proof.
  intros Hcore Hi Hr Hc.
  pose proof (core_in_cs _ _ _ _ _ Hcore Hi) as Hmu.
  destruct Hcore as [_ _ _ Hech Hlen]. simpl in *.
  destruct p as [| | | | | | | | | | | | | | |k|k|k|k| | |]; try done;
    try destruct k; try done; simpl.
  - destruct (errchMu (handle w)); [done|]. by intros [= <- <-].
  - destruct (errch (handle w)); by intros [= <- <-].
  - intros [= <- <-]. split; [done|].
    destruct (errch (handle w)) as [c|] eqn:Ec.
    + unfold chan_inv in *. simpl. rewrite Ec in Hc.
      destruct Hc as (ch & Hch & Hst). exists ch. split; [|done].
      apply lookup_app_l_Some. done.
    + assert (length (chans w) = c0) as Hl by lia. rewrite Hl.
      assert (stg = 0) as -> by (unfold chan_inv in Hc; rewrite Ec in Hc; tauto).
      by apply chan_inv_make.
  - rewrite Hmu by done. by intros [= <- <-].
  - by intros [= <- <-].
Qed.

Lemma handler_step e c0 w ths p w' t' :
  errch_core c0 (mkPool w (Running p :: ths)) ->
  is_handler e (Running p) -> chan_inv e c0 w (stage (Running p)) ->
  step_pc p w = Some (w', t') ->
  is_handler e t' /\ chan_inv e c0 w' (stage t').
Proof.
  intros Hcore Hr Hc.
  pose proof (core_in_cs _ _ _ 0 _ Hcore eq_refl) as Hmu.
  destruct Hcore as [_ _ Hth Hech Hlen]. simpl in *.
  apply Forall_cons in Hth as [Hknow _].
  destruct p as [| | | | | | | | | | | | | | |k|k|k|k| |e'|]; try done;
    try destruct k; try done; simpl in *; subst.
  - destruct (errchMu (handle w)); [done|]. by intros [= <- <-].
  - destruct (errch (handle w)); by intros [= <- <-].
  - intros [= <- <-]. split; [done|]. rewrite Hknow in *.
    assert (length (chans w) = c0) as Hl by lia. rewrite Hl.
    by apply chan_inv_make.
  - rewrite Hmu by done. by intros [= <- <-].
  - (* a.errch <- err *)
    unfold chan_inv in *. rewrite Hknow in *.
    destruct Hc as ([n buf closed] & Hch & Hcap & Hbuf & Hcl & Hrcv).
    simpl in Hcap, Hbuf, Hcl. subst. rewrite Hch. simpl. intros [= <- <-]. simpl.
    rewrite Hknow. split; [done|]. eexists. split.
    + apply list_lookup_insert_eq. by eapply lookup_lt_Some.
    + rewrite Hrcv. split; [done|]. simpl. split; [done|]. by left.
  - (* close(a.errch) *)
    unfold chan_inv in *. rewrite Hknow in *.
    destruct Hc as ([n buf closed] & Hch & Hcap & Hcl & Hcases).
    simpl in Hcap, Hcl, Hcases. subst. rewrite Hch. simpl. intros [= <- <-]. simpl.
    rewrite Hknow. split; [done|]. eexists. split.
    + apply list_lookup_insert_eq. by eapply lookup_lt_Some.
    + split; [done|]. simpl. split; [done|].
      destruct Hcases as [[-> ->] | [-> ->]]; [by left | right].
      split; [done|]. by exists 0.
Qed.

Lemma recv_cases c w w' r :
  recv c w = Some (w', r) ->
  exists ch, chans w !! c = Some ch /\
    ((exists e rest,
        chan_buf ch = e :: rest /\ r = (e, true) /\
        w' = set_chans
               (<[c := mkChan (chan_cap ch) rest (chan_closed ch)]> (chans w)) w)
     \/ (chan_buf ch = [] /\ chan_closed ch = true /\
          r = (None, false) /\ w' = w)).
Proof.
  unfold recv. destruct (chans w !! c) as [ch|]; [|done].
  intros Hr. exists ch. split; [done|].
  destruct (chan_buf ch) as [|e rest].
  - destruct (chan_closed ch); [|done]. right. by simplify_eq.
  - left. exists e, rest. by simplify_eq.
Qed.

Lemma recv_step e c0 w c w' r stg :
  length (chans w)
  = c0 + match errch (handle w) with Some _ => 1 | None => 0 end ->
  chan_inv e c0 w stg -> recv c w = Some (w', r) ->
  chan_inv e c0 (log_event (EvRecv c r) w') stg.
Proof.
  intros Hlen Hc Hr. destruct (recv_length _ _ _ _ Hr) as (Hh & _ & _).
  destruct (recv_cases _ _ _ _ Hr) as (ch & Hch & Hcases).
  unfold chan_inv in *. simpl. rewrite Hh, received_app. simpl.
  destruct (Nat.eqb_spec c c0) as [-> | Hne].
  - (* the channel of the handle *)
    destruct (errch (handle w)) as [c|].
    + destruct Hc as (ch' & Hch' & Hcap & Hst). simplify_eq.
      destruct Hcases as [(e' & rest & Hbuf & -> & ->) | (Hbuf & Hcl & -> & ->)].
      * simpl. eexists. split.
        { apply list_lookup_insert_eq. by eapply lookup_lt_Some. }
        split; [done|]. simpl. rewrite Hbuf in Hst.
        destruct stg as [|[|stg]]; [naive_solver | |].
        -- destruct Hst as [Hcl [[[= -> ->] ->] | [? _]]]; [|done].
           split; [done|]. by right.
        -- destruct Hst as [Hcl [[[= -> ->] ->] | [? _]]]; [|done].
           split; [done|]. right. split; [done|]. by exists 0.
      * exists ch'. split; [done|]. split; [done|]. rewrite Hbuf, Hcl in Hst.
        destruct stg as [|[|stg]]; [naive_solver | naive_solver |].
        destruct Hst as [_ [[? _] | [_ [k ->]]]]; [done|].
        split; [done|]. right. split; [done|]. exists (S k).
        by rewrite replicate_S_end.
    + apply lookup_lt_Some in Hch. lia.
  - (* another channel *)
    rewrite app_nil_r.
    destruct Hcases as [(e' & rest & _ & _ & ->) | (_ & _ & _ & ->)];
      [simpl | done].
    destruct (errch (handle w)) as [c1|]; [|done].
    destruct Hc as (ch' & Hch' & Hst). exists ch'. split; [|done].
    by rewrite list_lookup_insert_ne.
Qed.

Lemma errch_step e c0 x m m' :
  errch_inv e c0 m -> pool_step x m = Some m' ->
  errch_inv e c0 m' /\ length (threads m') = length (threads m) /\
  (is_step x = true -> total errch_weight (threads m') < total errch_weight (threads m)).
Proof.
  intros [Hcore (t0 & rest & Hths & Hh & Hrd & Hc)] Hstep.
  destruct (core_step _ _ _ _ Hcore Hstep) as (Hcore' & Hlen & Hdec).
  split; [|done]. split; [done|].
  unfold pool_step in Hstep. destruct (exited (world m)); [done|].
  destruct m as [w ths]. simpl in *. subst ths. destruct x as [[|i]|c]; simpl in *.
  - destruct t0 as [p| | |]; try done.
    destruct (step_pc p w) as [[w' t']|] eqn:Ep; [|done]. simplify_eq. simpl.
    destruct (handler_step _ _ _ _ _ _ _ Hcore Hh Hc Ep) as [Hh' Hc'].
    by exists t', rest.
  - destruct (rest !! i) as [[p| | |]|] eqn:Ei; try done.
    destruct (step_pc p w) as [[w' t']|] eqn:Ep; [|done]. simplify_eq. simpl.
    pose proof (proj1 (Forall_lookup _ _) Hrd i _ Ei) as Hr.
    destruct (reader_step e _ _ _ (S i) _ _ _ _ Hcore Ei Hr Hc Ep)
      as [Hr' Hc'].
    exists t0, (<[i:=t']> rest). split; [done|]. split; [done|].
    split; [by apply Forall_insert | done].
  - destruct (recv c w) as [[w' r]|] eqn:Er; [|done]. simplify_eq. simpl.
    exists t0, rest. split; [done|]. split; [done|]. split; [done|].
    eapply recv_step; [|done|done]. by destruct Hcore.
Qed.

Lemma errch_progress e c0 m :
  errch_inv e c0 m -> 0 < total errch_weight (threads m) ->
  exists x m', is_step x = true /\ pool_step x m = Some m'.
Proof.
  intros [[Hex Hmu Hth Hech Hlen] (t0 & rest & Hths & Hh & Hrd & Hc)] Hw.
  unfold pool_step. rewrite Hex. destruct m as [w ths]; simpl in *. subst ths.
  destruct (errchMu (handle w)) eqn:El.
  - assert (0 < total in_errch_cs (t0 :: rest)) as Hcs by lia.
    destruct (total_pos in_errch_cs _ Hcs) as (i & t & Hi & Ht).
    exists (Step i). rewrite Hi.
    destruct t as [[]| | |]; simpl in Ht; try lia; simpl; rewrite ?El;
      repeat case_match; simplify_eq; eauto.
  - destruct (total_pos errch_weight _ Hw) as (i & t & Hi & Ht).
    pose proof (total_lookup_le in_errch_cs _ _ _ Hi) as Hle.
    pose proof (proj1 (Forall_lookup _ _) Hth i _ Hi) as Hk.
    exists (Step i). rewrite Hi. destruct i as [|i]; simpl in Hi.
    + (* the caller of HandleError *)
      simplify_eq.
      destruct t as [[]| | |]; simpl in Ht, Hle, Hh, Hk; try done; try lia;
        simpl; rewrite ?El, ?Hk; eauto.
      * unfold chan_inv in Hc. rewrite Hk in Hc.
        destruct Hc as ([n buf closed] & Hch & Hcap & Hbuf & Hcl & _).
        simpl in *. subst. rewrite Hch. simpl. eauto.
      * repeat case_match; simplify_eq; eauto.
    + (* a caller of Errors *)
      pose proof (proj1 (Forall_lookup _ _) Hrd i _ Hi) as Hr.
      destruct t as [[]| | |];
        repeat match goal with k : caller |- _ => destruct k end;
        simpl in Ht, Hle, Hr, Hmu; try done; try lia; simpl; rewrite ?El; eauto.
Qed.

Lemma errch_done e c0 m :
  errch_inv e c0 m -> total errch_weight (threads m) = 0 ->
  threads m
  = Returned VUnit
      :: replicate (pred (length (threads m))) (Returned (VChan (Some c0))).
Proof.
  intros [[_ _ Hth _ _] (t0 & rest & Hths & Hh & Hrd & _)] Hw.
  rewrite Hths in *. simpl in *. apply Forall_cons in Hth as [_ Hth]. f_equal.
  - destruct t0 as [[]| [] | |];
      repeat match goal with k : caller |- _ => destruct k end;
      simpl in *; try done; lia.
  - symmetry. apply replicate_as_Forall. split; [done|].
    apply Forall_lookup. intros i t Hi.
    pose proof (proj1 (Forall_lookup _ _) Hth i _ Hi) as Hk.
    pose proof (proj1 (Forall_lookup _ _) Hrd i _ Hi) as Hr.
    pose proof (total_lookup_le errch_weight _ _ _ Hi) as Hle.
    destruct t as [[]| [] | |];
      repeat match goal with k : caller |- _ => destruct k end;
      simpl in *; try done; try lia.
    by destruct Hk as [_ ->].
Qed.

Lemma errch_init w0 e n :
  exited w0 = false -> errchMu (handle w0) = false ->
  errch (handle w0) = None ->
  received (length (chans w0)) (events w0) = [] ->
  errch_inv e (length (chans w0))
    (mkPool w0 (Running (E_lock (FromHandleError e))
                :: replicate n (Running (E_lock FromErrors)))).
Proof.
  intros Hex Hmu Hech Hrcv. split; [split; simpl; try done|].
  - by rewrite total_replicate, Hmu, Nat.mul_0_r.
  - apply Forall_cons. split; [done|]. by apply Forall_replicate.
  - by rewrite Hech.
  - rewrite Hech. lia.
  - eexists _, _. split; [done|]. split; [done|].
    split; [by apply Forall_replicate|]. unfold chan_inv. simpl. by rewrite Hech.
Qed.

(** What the readers of the channel have seen, and will see. *)
Lemma errch_observed e c0 m :
  errch_inv e c0 m ->
  (forall i v, threads m !! S i = Some (Returned v) ->
               v = VChan (Some c0) /\ errch (handle (world m)) = Some c0) /\
  (received c0 (events (world m)) = [] \/
   exists k, received c0 (events (world m))
             = (e, true) :: replicate k (None, false)) /\
  (threads m !! 0 = Some (Returned VUnit) ->
   exists w' r,
     recv c0 (world m) = Some (w', r) /\
     r = match received c0 (events (world m)) with
         | [] => (e, true)
         | _ :: _ => (None, false)
         end).
Proof.
  intros [[_ _ Hth _ _] (t0 & rest & Hths & Hh & Hrd & Hc)].
  rewrite Hths in *. apply Forall_cons in Hth as [Hk0 Hth].
  unfold chan_inv in Hc. split; [|split].
  - intros i v Hi. simpl in Hi.
    pose proof (proj1 (Forall_lookup _ _) Hth i _ Hi) as Hk.
    pose proof (proj1 (Forall_lookup _ _) Hrd i _ Hi) as Hr.
    destruct v; simpl in *; try done. by destruct Hk as [-> ->].
  - destruct (errch (handle (world m))); [|by left; apply Hc].
    destruct Hc as (ch & _ & _ & Hst).
    destruct (stage t0) as [|[|stg]]; [naive_solver | |].
    + destruct Hst as [_ [[_ ->] | [_ ->]]]; [by left | right; by exists 0].
    + destruct Hst as [_ [[_ ->] | [_ [k ->]]]]; [by left | right; by exists k].
  - intros [= ->]. simpl in *. rewrite Hk0 in Hc.
    destruct Hc as ([cap buf closed] & Hch & _ & Hcl & Hcases). simpl in *.
    subst closed. unfold recv. rewrite Hch. simpl.
    destruct Hcases as [[-> ->] | [-> [k ->]]]; eauto.
Qed.

(** C5. On a handle without error channel, let one goroutine call
    [HandleError(e)] and [n] goroutines call [Errors()], while readers
    receive from the channel at will.  Under every schedule, at every
    moment: every call of [Errors()] that has returned has returned the
    same channel, the one of the handle; what has been received from it
    so far is nothing, or [(e, true)] followed only by [(nil, false)]; and
    once [HandleError] has returned, a receive does not block and yields
    [(e, true)] if nothing was received yet, [(nil, false)] otherwise.
    Moreover all the calls return. *)
Theorem Errors_single_shot (w0 : World) (e : error) (n : nat) :
  exited w0 = false ->
  errchMu (handle w0) = false ->
  errch (handle w0) = None ->
  received (length (chans w0)) (events w0) = [] ->
  let c := length (chans w0) in
  let m0 := mkPool w0 (Running (E_lock (FromHandleError e))
                       :: replicate n (Running (E_lock FromErrors))) in
  (forall sched m,
     run pool_step sched m0 = Some m ->
     (forall i v, threads m !! S i = Some (Returned v) ->
                  v = VChan (Some c) /\ errch (handle (world m)) = Some c) /\
     (received c (events (world m)) = [] \/
      exists k, received c (events (world m))
                = (e, true) :: replicate k (None, false)) /\
     (threads m !! 0 = Some (Returned VUnit) ->
      exists w' r,
        recv c (world m) = Some (w', r) /\
        r = match received c (events (world m)) with
            | [] => (e, true)
            | _ :: _ => (None, false)
            end)) /\
  eventually pool_step is_step
    (fun m => threads m
              = Returned VUnit :: replicate n (Returned (VChan (Some c))))
    m0.
Proof.
  intros Hex Hmu Hech Hrcv c m0. subst c m0. set (c0 := length (chans w0)).
  pose proof (errch_init w0 e n Hex Hmu Hech Hrcv) as Hinit. fold c0 in Hinit.
  set (m0 := mkPool w0 _) in *.
  assert (length (threads m0) = S n) as Hlen0
    by (simpl; by rewrite length_replicate).
  split.
  - intros sched m Hrun. apply errch_observed.
    eapply (run_invariant pool_step (errch_inv e c0)); [|exact Hinit|exact Hrun].
    intros x s s' Hs Hstep. by destruct (errch_step _ _ _ _ _ Hs Hstep).
  - apply (eventually_by_measure pool_step (fun m => total errch_weight (threads m))
             is_step _
             (fun m => errch_inv e c0 m /\ length (threads m) = S n /\
                       0 < total errch_weight (threads m))).
    + intros s (Hs & _ & Hw). by eapply errch_progress.
    + intros s x s' (Hs & Hlen & Hw) Hx Hstep.
      destruct (errch_step _ _ _ _ _ Hs Hstep) as (Hs' & Hlen' & Hdec).
      destruct (decide (0 < total errch_weight (threads s'))) as [Hpos' | Hz'].
      * right. split; [|by apply Hdec]. split; [done|]. split; [lia|done].
      * left. assert (total errch_weight (threads s') = 0) as Hz by lia.
        pose proof (errch_done _ _ _ Hs' Hz) as Hall.
        rewrite Hlen', Hlen in Hall. done.
    + split; [exact Hinit|]. split; [done|]. simpl. lia.
Qed.

Lemma Errors_single_shot_witness :
  let w0 := boot (test_app []) in
  let e := Some "test error" in
  let m0 := mkPool w0 (Running (E_lock (FromHandleError e))
                       :: replicate 3 (Running (E_lock FromErrors))) in
  (forall sched m,
     run pool_step sched m0 = Some m ->
     (forall i v, threads m !! S i = Some (Returned v) ->
                  v = VChan (Some 0) /\ errch (handle (world m)) = Some 0) /\
     (received 0 (events (world m)) = [] \/
      exists k, received 0 (events (world m))
                = (e, true) :: replicate k (None, false)) /\
     (threads m !! 0 = Some (Returned VUnit) ->
      exists w' r,
        recv 0 (world m) = Some (w', r) /\
        r = match received 0 (events (world m)) with
            | [] => (e, true)
            | _ :: _ => (None, false)
            end)) /\
  eventually pool_step is_step
    (fun m => threads m
              = Returned VUnit :: replicate 3 (Returned (VChan (Some 0))))
    m0.
Proof.
  exact (Errors_single_shot (boot (test_app [])) (Some "test error") 3
           eq_refl eq_refl eq_refl eq_refl).
Defined.

End ErrorsFacts.

(** ** LookupEnv on any environment *)

Module LookupEnvMore.
Import LookupEnv LookupEnvFacts.

(** Entries that can still lead to a send. *)
Definition potential (key : string) (s : state) : nat :=
  total (line_sends key) (pending s) + total (may_send key) (workers s).

(** The caller holds a value. *)
Definition delivered (s : state) : nat :=
  match result s with
  | Some (_, true) => 1
  | _ => 0
  end.

(** [v] is the value of an entry of [env] with key portion [key]. *)
Definition is_value (key : string) (env : list string) (v : string) : Prop :=
  exists line, line ∈ env /\ cut_eq line = Some (key, v).

Definition worker_sound (key : string) (env : list string) (w : worker)
    : Prop :=
  match w with
  | WStart line => line ∈ env
  | WSend v => is_value key env v
  | WDefer | WExit => True
  end.

(** What holds in every state of a lookup of [key] in [env]. *)
Record sane (key : string) (env : list string) (s : state) : Prop := {
  sn_crashed : crashed s = false;
  sn_counted : counted s;
  sn_closing :
    match closing s with
    | CWait => ch_closed s = false
    | CClose => ch_closed s = false /\ wg s = 0
    | CExit => ch_closed s = true /\ wg s = 0
    end;
  sn_length : length (pending s) + length (workers s) = length env;
  sn_pending : Forall (fun line => line ∈ env) (pending s);
  sn_workers : Forall (worker_sound key env) (workers s);
  sn_result :
    match result s with
    | None => True
    | Some (v, true) => is_value key env v
    | Some (v, false) => v = "" /\ ch_closed s = true
    end;
  sn_lower :
    ContextDone (app s) = false ->
    total (line_sends key) env <= potential key s + delivered s;
  sn_upper : potential key s + delivered s <= total (line_sends key) env
}.

Lemma potential_le_wg key env s : sane key env s -> potential key s <= wg s.
Proof.
  intros [_ Hn _ _ _ _ _ _ _]. red in Hn. unfold potential.
  pose proof (total_le_length (line_sends key) (pending s) (line_sends_le key)).
  pose proof (total_le (may_send key) live (workers s) (may_send_le_live key)).
  lia.
Qed.

Lemma closed_wg key env s : sane key env s -> ch_closed s = true -> wg s = 0.
Proof.
  intros [_ _ Hcl _ _ _ _ _ _] Hc.
  destruct (closing s); destruct_and?; congruence.
Qed.

Lemma open_wg key env s : sane key env s -> 0 < wg s -> ch_closed s = false.
Proof.
  intros [_ _ Hcl _ _ _ _ _ _] Hc.
  destruct (closing s); destruct_and?; try done; lia.
Qed.

Lemma sane_init a key : sane key (Environment a) (init a).
Proof.
  split; simpl; try done; try lia.
  - red. simpl. lia.
  - apply Forall_forall. auto.
  - unfold potential, delivered. simpl. lia.
  - unfold potential, delivered. simpl. lia.
Qed.

Ltac sane_fields :=
  split;
  [split; unfold potential, delivered; simpl;
   rewrite ?total_app, ?length_app, ?length_insert; simpl;
   try done; try lia;
   try (match goal with
        | H : ch_closed ?s = _ |- context [ch_closed ?s] => rewrite H
        end; done)
  |].

Lemma sane_step key env s x s' :
  sane key env s -> step key x s = Some s' ->
  sane key env s' /\ measure s' < measure s.
Proof.
  intros Hs. pose proof (potential_le_wg _ _ _ Hs) as Hpw.
  pose proof (closed_wg _ _ _ Hs) as Hcw.
  destruct Hs as [Hc Hn Hcl Hlen Hp Hw Hr Hlo Hup].
  unfold step. rewrite Hc. red in Hn. unfold potential, delivered in *.
  destruct x as [| |i| |].
  - (* the context is cancelled *)
    destruct (ContextDone (app s)) eqn:Ed; [done|]. intros [= <-].
    sane_fields.
    unfold measure; simpl. rewrite Ed. lia.
  - (* the loop starts a goroutine *)
    destruct (pending s) as [|line rest] eqn:Ep; [done|]. intros [= <-].
    apply Forall_cons in Hp as [Hl Hp]. simpl in *.
    sane_fields.
    + red; simpl. rewrite total_app. simpl. lia.
    + apply Forall_app. split; [done|]. by apply Forall_singleton.
    + intros Hd. specialize (Hlo Hd). lia.
    + unfold measure; simpl. rewrite Ep, total_app. simpl. lia.
  - (* a goroutine moves *)
    destruct (workers s !! i) as [w|] eqn:Ei; [|done].
    pose proof (total_lookup_le live _ _ _ Ei) as Hle.
    pose proof (proj1 (Forall_lookup _ _) Hw i _ Ei) as Hwi.
    assert (forall w', total live (<[i:=w']> (workers s)) + live w
                       = total live (workers s) + live w') as Hi1
      by (intros; by apply total_insert).
    assert (forall w', total worker_weight (<[i:=w']> (workers s))
                       + worker_weight w
                       = total worker_weight (workers s) + worker_weight w')
      as Hi2 by (intros; by apply total_insert).
    assert (forall w', total (may_send key) (<[i:=w']> (workers s))
                       + may_send key w
                       = total (may_send key) (workers s) + may_send key w')
      as Hi3 by (intros; by apply total_insert).
    assert (forall w', worker_sound key env w' ->
              Forall (worker_sound key env) (<[i:=w']> (workers s)))
      as Hins by (intros; by apply Forall_insert).
    destruct w as [line|v| |]; simpl in Hwi, Hle.
    + (* the select *)
      intros [= <-].
      set (w' := select (ContextDone (app s)) key line).
      specialize (Hi1 w'). specialize (Hi2 w'). specialize (Hi3 w').
      specialize (Hins w').
      assert (live w' = 1 /\ worker_weight w' < 3 /\
              may_send key w' <= line_sends key line /\
              (ContextDone (app s) = false ->
               may_send key w' = line_sends key line) /\
              worker_sound key env w') as (Hl1 & Hw3 & Hms & Hme & Hso).
      { subst w'. unfold select, line_sends.
        destruct (ContextDone (app s)); [simpl; repeat split; try done; lia|].
        destruct (entry_value key line) as [v|] eqn:Ev; simpl;
          repeat split; try lia.
        exists line. split; [done|]. by apply entry_value_Some. }
      simpl in *.
      sane_fields; auto.
      * red; simpl. lia.
      * intros Hd. specialize (Hlo Hd). specialize (Hme Hd). lia.
      * unfold measure; simpl. lia.
    + (* the send meets the receive *)
      destruct (ch_closed s) eqn:Ecl.
      { specialize (Hcw eq_refl). lia. }
      destruct (result s) as [r|] eqn:Er; [done|]. intros [= <-].
      specialize (Hi1 WDefer). specialize (Hi2 WDefer). specialize (Hi3 WDefer).
      specialize (Hins WDefer I). simpl in *.
      sane_fields.
      * red; simpl. lia.
      * intros Hd. specialize (Hlo Hd). lia.
      * unfold measure; simpl. rewrite Er. lia.
    + (* the deferred Done *)
      destruct (wg s) as [|n] eqn:En; [lia|]. intros [= <-].
      specialize (Hi1 WExit). specialize (Hi2 WExit). specialize (Hi3 WExit).
      specialize (Hins WExit I). simpl in *.
      sane_fields.
      * red; simpl. lia.
      * destruct (closing s); destruct_and?; try done.
      * intros Hd. specialize (Hlo Hd). lia.
      * unfold measure; simpl. lia.
    + done.
  - (* the closing goroutine moves *)
    destruct (closing s) eqn:Ec.
    + destruct (Nat.eqb_spec (wg s) 0) as [Hz|]; [|done]. intros [= <-].
      sane_fields.
      unfold measure; simpl. rewrite Ec. simpl. lia.
    + destruct Hcl as [Hcl Hz]. rewrite Hcl. intros [= <-].
      sane_fields.
      * destruct (result s) as [[v []]|]; try done. naive_solver.
      * unfold measure; simpl. rewrite Ec. simpl. lia.
    + done.
  - (* the caller receives from the closed channel *)
    destruct (result s) eqn:Er; [done|].
    destruct (ch_closed s) eqn:Ecl; [|done]. intros [= <-].
    rewrite ?Er in *. sane_fields.
    unfold measure; simpl. rewrite Er. lia.
Qed.

Lemma sane_progress key env s :
  sane key env s -> result s = None ->
  exists x s', no_cancel x = true /\ step key x s = Some s'.
Proof.
  intros Hs Hr. pose proof (open_wg _ _ _ Hs) as Hop.
  destruct Hs as [Hc Hn Hcl _ _ _ _ _ _]. unfold step. rewrite Hc. red in Hn.
  destruct (pending s) as [|line rest] eqn:Ep; [|exists ASpawn; eauto].
  simpl in Hn.
  destruct (decide (0 < total live (workers s))) as [Hl | Hl].
  - destruct (total_pos live _ Hl) as (i & w & Hi & Hlw).
    exists (AWorker i). rewrite Hi.
    destruct w as [line|v| |]; simpl in Hlw; try lia; [eauto | |].
    + rewrite Hop, Hr by lia. eauto.
    + destruct (wg s); [lia | eauto].
  - destruct (closing s) eqn:Ec.
    + exists ACloser. replace (wg s) with 0 by lia. simpl. eauto.
    + exists ACloser. destruct Hcl as [-> _]. eauto.
    + exists ARecv. destruct Hcl as [-> _]. rewrite Hr. eauto.
Qed.

Lemma sane_run key a sched s :
  run (step key) sched (init a) = Some s -> sane key (Environment a) s.
Proof.
  apply (run_invariant (step key) (sane key (Environment a)));
    [|apply sane_init].
  intros x s0 s1 Hs Hstep. by destruct (sane_step _ _ _ _ _ Hs Hstep).
Qed.

(** The number of entries of [env] whose key portion is [key]. *)
Definition matches (key : string) (env : list string) : nat :=
  length (filter (fun line => key_portion line = Some key) env).

Lemma line_sends_key key line :
  key_portion line = Some key -> line_sends key line = 1.
Proof.
  unfold line_sends, key_portion. intros Hk.
  destruct (cut_eq line) as [[k v]|] eqn:Ec; [|done].
  injection Hk as ->. apply entry_value_Some in Ec. by rewrite Ec.
Qed.

Lemma line_sends_other key line :
  key_portion line <> Some key -> line_sends key line = 0.
Proof.
  unfold line_sends. intros Hk. by rewrite entry_value_None.
Qed.

Lemma total_line_sends key env : total (line_sends key) env = matches key env.
Proof.
  unfold matches. induction env as [|line env IH]; simpl; [done|].
  rewrite filter_cons, IH.
  destruct (decide (key_portion line = Some key)) as [Hk|Hk].
  - by rewrite line_sends_key.
  - by rewrite line_sends_other.
Qed.

Lemma no_matches_other key env :
  matches key env = 0 -> Forall (other_entry key) env.
Proof.
  unfold matches. induction env as [|line env IH]; [constructor|].
  rewrite filter_cons. destruct (decide (key_portion line = Some key)); [done|].
  intros H. constructor; [by right | by apply IH].
Qed.

(** X1. On a handle whose [Context] is set (the handles of [App]: a
    context is there, [ContextDone] tells whether its [Done()] is
    closed), whatever the environment, the key and the schedule,
    cancelled or not, the caller of [LookupEnv] returns. *)
Theorem LookupEnv_always_returns (a : App) (key : string) :
  eventually (step key) any_action (fun s => is_Some (result s)) (init a) /\
  eventually (step key) no_cancel (fun s => is_Some (result s)) (init a).
Proof.
  assert (forall allowed,
            (forall x, no_cancel x = true -> allowed x = true) ->
            eventually (step key) allowed (fun s => is_Some (result s)) (init a))
    as Hall.
  { intros allowed Hsub.
    apply (eventually_by_measure (step key) measure allowed _
             (fun s => sane key (Environment a) s /\ result s = None)).
    - intros s [Hs Hr]. destruct (sane_progress _ _ _ Hs Hr) as (x & s' & ? & ?).
      exists x, s'. auto.
    - intros s x s' [Hs _] _ Hstep.
      destruct (sane_step _ _ _ _ _ Hs Hstep) as [Hs' Hm].
      destruct (result s') eqn:Er; [left; by eexists | right; done].
    - split; [apply sane_init | done]. }
  split; apply Hall; auto.
Qed.

(** X2. On a handle whose [Context] is set, the channel and the wait
    group of [LookupEnv] are never misused: under every schedule there
    is no send on the closed channel, no second close of it and no
    negative wait-group counter. *)
Theorem LookupEnv_never_panics (a : App) (key : string)
    (sched : list action) :
  match run (step key) sched (init a) with
  | Some s => crashed s = false
  | None => True
  end.
Proof.
  destruct (run (step key) sched (init a)) as [s|] eqn:Hrun; [|done].
  by destruct (sane_run _ _ _ _ Hrun).
Qed.

(** X3. A value returned with [true] is the value of an entry of the
    environment whose key portion is the key, under every schedule. *)
Theorem LookupEnv_found_sound (a : App) (key : string)
    (sched : list action) :
  match run (step key) sched (init a) with
  | Some s =>
      forall v, result s = Some (v, true) ->
                exists line, line ∈ Environment a /\
                             cut_eq line = Some (key, v)
  | None => True
  end.
Proof.
  destruct (run (step key) sched (init a)) as [s|] eqn:Hrun; [|done].
  intros v Hv. destruct (sane_run _ _ _ _ Hrun) as [_ _ _ _ _ _ Hr _ _].
  by rewrite Hv in Hr.
Qed.

(** X4. A result with [false] carries the empty string, and it is
    returned only when the context was cancelled or no entry of the
    environment has the key. *)
Theorem LookupEnv_not_found_sound (a : App) (key : string)
    (sched : list action) :
  match run (step key) sched (init a) with
  | Some s =>
      forall v, result s = Some (v, false) ->
                v = "" /\
                (ContextDone (app s) = true \/
                 Forall (other_entry key) (Environment a))
  | None => True
  end.
Proof.
  destruct (run (step key) sched (init a)) as [s|] eqn:Hrun; [|done].
  intros v Hv. pose proof (sane_run _ _ _ _ Hrun) as Hs.
  pose proof (potential_le_wg _ _ _ Hs) as Hpw.
  pose proof (closed_wg _ _ _ Hs) as Hcw.
  destruct Hs as [_ _ _ _ _ _ Hr Hlo _]. rewrite Hv in Hr.
  destruct Hr as [-> Hcl]. split; [done|].
  destruct (ContextDone (app s)); [by left | right].
  specialize (Hlo eq_refl). specialize (Hcw Hcl).
  unfold delivered in Hlo. rewrite Hv in Hlo.
  apply no_matches_other. rewrite <- total_line_sends. lia.
Qed.

(** Nothing of the lookup is left: the caller has its result, every
    entry had its goroutine, all of them ended, the channel is closed. *)
Definition finished (env : list string) (s : state) : Prop :=
  is_Some (result s) /\ pending s = [] /\
  workers s = replicate (length env) WExit /\
  closing s = CExit /\ ch_closed s = true.

(** Something is still to be done. *)
Definition unfinished (s : state) : Prop :=
  result s = None \/ pending s <> [] \/ 0 < total live (workers s) \/
  closing s <> CExit.

Lemma total_live_zero ws : total live ws = 0 -> ws = replicate (length ws) WExit.
Proof.
  induction ws as [|w ws IH]; simpl; [done|]. intros H.
  destruct w; simpl in H; try lia. f_equal. by apply IH.
Qed.

Lemma finished_or_not key env s :
  sane key env s -> finished env s \/ unfinished s.
Proof.
  intros [_ _ Hcl Hlen _ _ _ _ _]. unfold finished, unfinished.
  destruct (result s) as [r|]; [|by right; left].
  destruct (pending s) as [|line rest]; [|by right; right; left].
  destruct (decide (0 < total live (workers s))) as [|Hz];
    [by right; right; right; left |].
  destruct (closing s); try (right; right; right; right; done).
  left. destruct Hcl as [Hcl _]. simpl in Hlen.
  split; [by eexists|]. split; [done|]. split; [|done].
  rewrite <- Hlen. apply total_live_zero. lia.
Qed.

Lemma unfinished_progress key env s :
  matches key env <= 1 -> sane key env s -> unfinished s ->
  exists x s', any_action x = true /\ step key x s = Some s'.
Proof.
  intros Hm Hs Hu.
  destruct (result s) as [r|] eqn:Er;
    [|destruct (sane_progress _ _ _ Hs Er) as (x & s' & _ & ?); by exists x, s'].
  pose proof (open_wg _ _ _ Hs) as Hop. pose proof (closed_wg _ _ _ Hs) as Hcw.
  destruct Hs as [Hc Hn Hcl _ _ _ Hr _ Hup]. unfold step. rewrite Hc.
  red in Hn. rewrite total_line_sends in Hup.
  unfold potential, delivered in Hup. rewrite Er in *.
  destruct (pending s) as [|line rest] eqn:Ep; [|exists ASpawn; eauto].
  simpl in Hn, Hup.
  destruct (decide (0 < total live (workers s))) as [Hl | Hl].
  - destruct (total_pos live _ Hl) as (i & w & Hi & Hlw).
    pose proof (total_lookup_le (may_send key) _ _ _ Hi) as Hle.
    exists (AWorker i). rewrite Hi.
    destruct w as [line|v| |]; simpl in Hlw, Hle; try lia; [eauto | |].
    + destruct r as [v' []]; [lia|]. destruct Hr as [_ Hcl'].
      rewrite Hcw in Hn; [lia|done].
    + destruct (wg s); [lia | eauto].
  - destruct Hu as [? | [? | [? | Hu]]]; try done; try congruence.
    destruct (closing s) eqn:Ec; [| |congruence].
    + exists ACloser. replace (wg s) with 0 by lia. simpl. eauto.
    + exists ACloser. destruct Hcl as [-> _]. eauto.
Qed.

(** X5. When at most one entry of the environment has the key, nothing
    of [LookupEnv] is left behind: under every schedule, cancelled or
    not, the caller returns, every goroutine started for an entry calls
    [Done] and ends, and the channel is closed. *)
Theorem LookupEnv_no_leak (a : App) (key : string) :
  matches key (Environment a) <= 1 ->
  eventually (step key) any_action (finished (Environment a)) (init a).
Proof.
  intros Hm. pose proof (sane_init a key) as Hinit.
  destruct (finished_or_not _ _ _ Hinit) as [Hf | Hu]; [by apply ev_now|].
  apply (eventually_by_measure (step key) measure any_action _
           (fun s => sane key (Environment a) s /\ unfinished s));
    [| |done].
  - intros s [Hs Hu']. by eapply unfinished_progress.
  - intros s x s' [Hs _] _ Hstep.
    destruct (sane_step _ _ _ _ _ Hs Hstep) as [Hs' Hlt].
    destruct (finished_or_not _ _ _ Hs'); [by left | by right].
Qed.

Lemma LookupEnv_no_leak_witness :
  matches "PATH" ["HOME=/home/test"; "PATH=/bin"; "TEST=true"] <= 1 /\
  eventually (step "PATH") any_action
    (finished ["HOME=/home/test"; "PATH=/bin"; "TEST=true"])
    (init (test_app ["HOME=/home/test"; "PATH=/bin"; "TEST=true"])).
Proof.
  assert (matches "PATH" ["HOME=/home/test"; "PATH=/bin"; "TEST=true"] <= 1)
    as Hm by (vm_compute; lia).
  split; [exact Hm|].
  exact (LookupEnv_no_leak
           (test_app ["HOME=/home/test"; "PATH=/bin"; "TEST=true"]) "PATH" Hm).
Defined.

Lemma run_live key sched s s' :
  Forall (fun x => no_cancel x = true) sched ->
  run (step key) sched s = Some s' -> app s' = app s.
Proof.
  revert s; induction sched as [|x sched IH]; intros s Hall; simpl.
  - by intros [= <-].
  - apply Forall_cons in Hall as [Hx Hall].
    destruct (step key x s) as [s1|] eqn:Es; [|done]. intros Hrun.
    rewrite (IH _ Hall Hrun). unfold step in Es.
    destruct x; try done; repeat case_match; by simplify_eq.
Qed.

(** X6. When two or more entries of the environment have the key and
    the context is not cancelled, [wg.Wait()] never returns: under every
    schedule without cancellation the counter of the wait group stays
    positive, the closing goroutine stays in its wait and the channel is
    never closed.  A goroutine whose send finds no receiver stays
    blocked. *)
Theorem LookupEnv_duplicate_leak (a : App) (key : string)
    (sched : list action) (s : state) :
  2 <= matches key (Environment a) ->
  ContextDone a = false ->
  Forall (fun x => no_cancel x = true) sched ->
  run (step key) sched (init a) = Some s ->
  0 < wg s /\ closing s = CWait /\ ch_closed s = false.
Proof.
  intros Hm Hd Hall Hrun. pose proof (sane_run _ _ _ _ Hrun) as Hs.
  pose proof (potential_le_wg _ _ _ Hs) as Hpw.
  pose proof (open_wg _ _ _ Hs) as Hop.
  destruct Hs as [_ _ Hcl _ _ _ _ Hlo _].
  rewrite (run_live _ _ _ _ Hall Hrun) in Hlo. specialize (Hlo Hd).
  rewrite total_line_sends in Hlo.
  assert (delivered s <= 1) by (unfold delivered; repeat case_match; lia).
  assert (0 < wg s) as Hwg by lia.
  split; [done|]. split; [|by apply Hop].
  destruct (closing s); destruct_and?; try done; lia.
Qed.

Lemma LookupEnv_duplicate_leak_witness :
  let sched := [ASpawn; ASpawn; AWorker 0; AWorker 1; AWorker 0; AWorker 0] in
  exists s,
    run (step "K") sched (init (test_app ["K=1"; "K=2"])) = Some s /\
    result s = Some ("1", true) /\
    workers s = [WExit; WSend "2"] /\
    0 < wg s /\ closing s = CWait /\ ch_closed s = false.
Proof.
  eexists. split; [reflexivity|]. split; [reflexivity|]. split; [reflexivity|].
  apply (LookupEnv_duplicate_leak (test_app ["K=1"; "K=2"]) "K"
           [ASpawn; ASpawn; AWorker 0; AWorker 1; AWorker 0; AWorker 0]).
  - vm_compute. lia.
  - reflexivity.
  - repeat constructor.
  - reflexivity.
Defined.

(** X7. An entry is found under a key exactly when it is the key, one
    ['='] and the value, the key holding no ['=']: the value is all that
    follows the first ['='], further ['='] included. *)
Theorem entry_value_round_trip (key line v : string) :
  entry_value key line = Some v <->
  line = key +:+ "=" +:+ v /\ has_eq key = false.
Proof.
  rewrite entry_value_Some. apply cut_eq_spec.
Qed.

Lemma has_eq_other key line : has_eq key = true -> other_entry key line.
Proof.
  intros Hk. right. unfold key_portion. intros Hp.
  destruct (cut_eq line) as [[k v]|] eqn:Ec; [|done]. injection Hp as ->.
  apply cut_eq_spec in Ec as [_ Hno]. congruence.
Qed.

(** X8. A key that contains ['='] is never found: whatever the
    environment and the schedule, [LookupEnv] returns [("", false)]. *)
Theorem LookupEnv_key_with_eq (a : App) (key : string) :
  has_eq key = true ->
  returns any_action a key ("", false).
Proof.
  intros Hk. apply quiet_returns; [done|]. apply quiet_init. right.
  apply Forall_forall. intros line _. by apply has_eq_other.
Qed.

Lemma LookupEnv_key_with_eq_witness :
  has_eq "A=B" = true /\
  returns any_action (test_app ["A=B=C"; "A=B"]) "A=B" ("", false).
Proof.
  split; [reflexivity|].
  exact (LookupEnv_key_with_eq (test_app ["A=B=C"; "A=B"]) "A=B" eq_refl).
Defined.

End LookupEnvMore.

(** ** More on the methods of the handle *)

Module HandleMore.
Import Handle HandleFacts.

Lemma call_os_exit code w :
  ExitHandler (handle w) = None ->
  call (X_handler code) w = (terminate (log_event (EvOsExit code) w), Gone).
Proof. unfold call. simpl. by intros ->. Qed.

Lemma Exit_teardown_any code w :
  loggerMu (handle w) = false -> sound_logger w ->
  exists w1,
    Exit_teardown code w = (w1, Running (X_handler code)) /\
    handle w1 = set_logger None (handle w) /\
    length (bases w1) = length (bases w) /\ exited w1 = exited w.
Proof.
  intros Hmu Hs. destruct (logger (handle w)) as [p|] eqn:Hl.
  - destruct (Exit_teardown_sound code w p Hmu Hl Hs)
      as (w1 & Ht & Hh & _ & Hx & b & Hb & Hi).
    exists w1. repeat split; try done.
    destruct (gomol.isInitialized b); destruct Hi as (_ & -> & _) || destruct Hi as [_ ->];
      by rewrite ?length_insert.
  - exists w. split; [by apply Exit_teardown_no_logger|].
    open_world w. by subst.
Qed.

(** X9. Without exit handler, [Exit(code)] tears the logger down and
    then calls [os.Exit(code)]: the process ends with exactly that code,
    and [Exit] does not panic. *)
Theorem Exit_without_handler (w : World) (code : Z) :
  loggerMu (handle w) = false ->
  sound_logger w ->
  ExitHandler (handle w) = None ->
  exists w1,
    Exit_teardown code w = (w1, Running (X_handler code)) /\
    logger (handle w1) = None /\
    Exit code w = (terminate (log_event (EvOsExit code) w1), Gone).
Proof.
  intros Hmu Hs Hh.
  destruct (Exit_teardown_any code w Hmu Hs) as (w1 & Ht & Hh1 & _).
  exists w1. split; [done|]. split; [by rewrite Hh1|].
  rewrite (Exit_split _ _ _ Ht). apply call_os_exit. by rewrite Hh1.
Qed.

Lemma Exit_without_handler_witness :
  exists w1,
    Exit_teardown 3
      (fst (Logger (boot (new_handle [] [] false 0 1 2 None))))
    = (w1, Running (X_handler 3)) /\
    logger (handle w1) = None /\
    events w1 = [EvShutdown 0] /\
    Exit 3 (fst (Logger (boot (new_handle [] [] false 0 1 2 None))))
    = (terminate (log_event (EvOsExit 3) w1), Gone).
Proof.
  assert (sound_logger
            (fst (Logger (boot (new_handle [] [] false 0 1 2 None))))) as Hs.
  { red. simpl. by eexists. }
  destruct (Exit_without_handler
              (fst (Logger (boot (new_handle [] [] false 0 1 2 None)))) 3
              eq_refl Hs eq_refl) as (w1 & Ht & Hl & He).
  exists w1. split; [exact Ht|]. split; [exact Hl|]. split; [|exact He].
  vm_compute in Ht. by injection Ht as <-.
Defined.

(** X10. When the shutdown of the logger fails, [Exit] panics with the
    error of the sink: the exit handler is not called, the logger stays
    in the handle, and [loggerMu] is left locked, so that a later call
    of [Logger()] or [Exit] blocks. *)
Theorem Exit_failed_shutdown (w : World) (code : Z) (p : ptr)
    (b : gomol.Base) (msg : string) :
  loggerMu (handle w) = false ->
  logger (handle w) = Some p ->
  bases w !! p = Some b ->
  gomol.isInitialized b = true ->
  snd (gomol.ShutdownLoggers b) = Some msg ->
  exists w',
    Exit code w = (w', Panicked msg) /\
    events w' = events w ++ [EvShutdown p] /\
    logger (handle w') = Some p /\
    loggerMu (handle w') = true /\
    Logger w' = (w', Running L_lock) /\
    forall code', Exit code' w' = (w', Running (X_lock code')).
Proof.
  unfold Exit, Logger, call. open_world w. intros -> -> Hb Hi Hs. simpl.
  rewrite Hb. simpl. rewrite Hi. simpl. rewrite Hb.
  destruct (gomol.ShutdownLoggers b) as [b' err]. simpl in Hs. subst err.
  eexists. split; [reflexivity|]. simpl. done.
Qed.

Lemma Exit_failed_shutdown_witness :
  let b := gomol.mkBase (gomol.mkConfig "filename" "lineno" "seq" 10000)
             [gomol.ConsoleLogger true 12 logTemplate;
              gomol.ClientLogger None (Some "disk full")] true in
  let w := set_bases [b] (fst (Logger (boot (test_app [])))) in
  exists w',
    Exit 1 w = (w', Panicked "disk full") /\
    events w' = events w ++ [EvShutdown 0] /\
    logger (handle w') = Some 0 /\
    loggerMu (handle w') = true /\
    Logger w' = (w', Running L_lock) /\
    forall code', Exit code' w' = (w', Running (X_lock code')).
Proof.
  exact (Exit_failed_shutdown
           (set_bases
              [gomol.mkBase (gomol.mkConfig "filename" "lineno" "seq" 10000)
                 [gomol.ConsoleLogger true 12 logTemplate;
                  gomol.ClientLogger None (Some "disk full")] true]
              (fst (Logger (boot (test_app [])))))
           1 0 _ "disk full" eq_refl eq_refl eq_refl eq_refl eq_refl).
Defined.

(** X11. When the logger of the handle is no longer initialised (its
    owner has shut it down), [Exit] does not shut it down again: no
    shutdown happens, the bases are untouched, the logger reference is
    cleared and the handler [h] is called with the code; [Exit] ends as
    the outcome [h code] of that call decides. *)
Theorem Exit_logger_not_initialized (w : World) (code : Z) (p : ptr)
    (b : gomol.Base) (h : Z -> handler_outcome) :
  loggerMu (handle w) = false ->
  logger (handle w) = Some p ->
  bases w !! p = Some b ->
  gomol.isInitialized b = false ->
  ExitHandler (handle w) = Some h ->
  exists w1,
    Exit_teardown code w = (w1, Running (X_handler code)) /\
    logger (handle w1) = None /\ bases w1 = bases w /\
    events w1 = events w /\
    Exit code w = call (X_handler code) w1 /\
    events (fst (Exit code w)) = events w ++ [EvExitHandler code] /\
    Exit code w = handler_called code (h code) w1.
Proof.
  intros Hmu Hl Hb Hi Hh.
  destruct (Exit_teardown_sound code w p Hmu Hl)
    as (w1 & Ht & Hh1 & _ & _ & b' & Hb' & Hcase).
  { red. rewrite Hl. exists b. split; [done|]. congruence. }
  rewrite Hb in Hb'. injection Hb' as <-. rewrite Hi in Hcase.
  destruct Hcase as [Hev Hbs]. exists w1.
  split; [done|]. split; [by rewrite Hh1|]. split; [done|]. split; [done|].
  rewrite (Exit_split _ _ _ Ht). split; [done|].
  rewrite (call_handler_called code w1 h) by (by rewrite Hh1).
  split; [|done]. unfold handler_called.
  destruct (h code); simpl; by rewrite Hev.
Qed.

Lemma Exit_logger_not_initialized_witness :
  let w0 := fst (Logger (boot (test_app []))) in
  let w := set_bases [fst (gomol.ShutdownLoggers (logger_base (handle w0)))]
             w0 in
  exists w1,
    Exit_teardown 255 w = (w1, Running (X_handler 255)) /\
    logger (handle w1) = None /\ bases w1 = bases w /\
    events w1 = events w /\
    Exit 255 w = call (X_handler 255) w1 /\
    events (fst (Exit 255 w)) = events w ++ [EvExitHandler 255%Z] /\
    Exit 255 w = (log_event (EvExitHandler 255) w1,
                  Panicked "system exit 255").
Proof.
  exact (Exit_logger_not_initialized
           (set_bases
              [fst (gomol.ShutdownLoggers
                      (logger_base (handle (fst (Logger (boot (test_app [])))))))]
              (fst (Logger (boot (test_app [])))))
           255 0 _ (fun code => HPanics ("system exit " +:+ pretty code))
           eq_refl eq_refl eq_refl eq_refl eq_refl).
Defined.

Lemma Logger_makes w :
  loggerMu (handle w) = false -> logger (handle w) = None ->
  exists w1,
    Logger w = (w1, Returned (VLogger (Some (length (bases w))))) /\
    handle w1 = set_logger (Some (length (bases w))) (handle w) /\
    bases w1 = bases w ++ [logger_base (handle w)] /\
    chans w1 = chans w /\ events w1 = events w /\ exited w1 = exited w.
Proof.
  open_world w. intros -> ->. unfold Logger, call. simpl.
  rewrite lookup_snoc. simpl. eexists; split; [reflexivity|]. simpl.
  by rewrite insert_snoc.
Qed.

(** X12. The first [Logger()] on a handle adds exactly one base: one
    sink, the console sink, colorized, writing to the Stderr of the
    handle, with the timestamp in its template exactly when that stream
    is the platform's; the base is initialised and no event happens.
    A second call returns the same reference and changes nothing. *)
Theorem Logger_once (w : World) :
  loggerMu (handle w) = false ->
  logger (handle w) = None ->
  exists w1 template,
    Logger w = (w1, Returned (VLogger (Some (length (bases w))))) /\
    bases w1
    = bases w
      ++ [gomol.mkBase (gomol.mkConfig "filename" "lineno" "seq" 10000)
            [gomol.ConsoleLogger true (Stderr (handle w)) template] true] /\
    (template = if Nat.eqb (Stderr (handle w)) os_Stderr
                then timestamp +:+ logTemplate else logTemplate) /\
    events w1 = events w /\
    Logger w1 = (w1, Returned (VLogger (Some (length (bases w))))).
Proof.
  intros Hmu Hl. destruct (Logger_makes w Hmu Hl) as (w1 & Hc & Hh & Hb & _ & He & _).
  exists w1. eexists. split; [done|]. split; [exact Hb|].
  split; [reflexivity|]. split; [done|].
  apply Logger_again; by rewrite Hh.
Qed.

Lemma Logger_once_witness :
  let w := boot (test_app []) in
  exists w1 template,
    Logger w = (w1, Returned (VLogger (Some 0))) /\
    bases w1
    = [gomol.mkBase (gomol.mkConfig "filename" "lineno" "seq" 10000)
         [gomol.ConsoleLogger true 12 template] true] /\
    (template = logTemplate) /\
    events w1 = [] /\
    Logger w1 = (w1, Returned (VLogger (Some 0))).
Proof.
  exact (Logger_once (boot (test_app [])) eq_refl eq_refl).
Defined.

(** X13. A logger made after an [Exit] that came back (its handler
    panicked and the panic was recovered) is a new one: [Logger()] returns
    a reference different from the one returned before the exit; the old
    base is shut down, the new one is initialised. *)
Theorem Logger_after_Exit (w : World) (code : Z) (h : Z -> handler_outcome)
    (msg : string) :
  loggerMu (handle w) = false ->
  logger (handle w) = None ->
  ExitHandler (handle w) = Some h ->
  h code = HPanics msg ->
  exists w1 w2 w3 p1 p2,
    Logger w = (w1, Returned (VLogger (Some p1))) /\
    Exit code w1 = (w2, Panicked msg) /\
    logger (handle w2) = None /\
    Logger w2 = (w3, Returned (VLogger (Some p2))) /\
    p1 <> p2 /\
    gomol.isInitialized <$> bases w3 !! p1 = Some false /\
    gomol.isInitialized <$> bases w3 !! p2 = Some true.
Proof.
  intros Hmu Hl Hh Hc.
  destruct (Logger_makes w Hmu Hl) as (w1 & Hc1 & Hh1 & Hb1 & _ & _ & _).
  set (p1 := length (bases w)) in *.
  assert (bases w1 !! p1 = Some (logger_base (handle w))) as Hp1
    by (rewrite Hb1; apply lookup_snoc).
  assert (loggerMu (handle w1) = false) as Hmu1 by (by rewrite Hh1).
  assert (logger (handle w1) = Some p1) as Hl1 by (by rewrite Hh1).
  destruct (Exit_teardown_sound code w1 p1 Hmu1 Hl1)
    as (w1' & Ht & Hh1' & _ & _ & b & Hb & Hcase).
  { red. rewrite Hl1. eexists. split; [exact Hp1|]. done. }
  rewrite Hp1 in Hb. injection Hb as <-. simpl in Hcase.
  destruct Hcase as (_ & Hbs & _).
  set (w2 := log_event (EvExitHandler code) w1').
  assert (Exit code w1 = (w2, Panicked msg)) as Hexit.
  { rewrite (Exit_split _ _ _ Ht), (call_handler code w1' h).
    - by rewrite Hc.
    - by rewrite Hh1', Hh1. }
  assert (loggerMu (handle w2) = false) as Hmu2 by (simpl; by rewrite Hh1').
  assert (logger (handle w2) = None) as Hl2 by (simpl; by rewrite Hh1').
  destruct (Logger_makes w2 Hmu2 Hl2) as (w3 & Hc3 & _ & Hb3 & _).
  assert (length (bases w2) = S p1) as Hlen.
  { simpl. rewrite Hbs, length_insert, Hb1, length_app. simpl. lia. }
  exists w1, w2, w3, p1, (S p1). rewrite Hlen in Hc3.
  split; [done|]. split; [done|]. split; [done|]. split; [done|].
  split; [lia|]. rewrite Hb3. split.
  - rewrite lookup_app_l by (rewrite Hlen; lia). simpl. rewrite Hbs.
    rewrite list_lookup_insert_eq by (by eapply lookup_lt_Some). done.
  - rewrite <- Hlen, lookup_snoc. done.
Qed.

Lemma Logger_after_Exit_witness :
  let w := boot (test_app []) in
  exists w1 w2 w3 p1 p2,
    Logger w = (w1, Returned (VLogger (Some p1))) /\
    Exit 255 w1 = (w2, Panicked "system exit 255") /\
    logger (handle w2) = None /\
    Logger w2 = (w3, Returned (VLogger (Some p2))) /\
    p1 <> p2 /\
    gomol.isInitialized <$> bases w3 !! p1 = Some false /\
    gomol.isInitialized <$> bases w3 !! p2 = Some true.
Proof.
  exact (Logger_after_Exit (boot (test_app [])) 255
           (fun code => HPanics ("system exit " +:+ pretty code))
           "system exit 255" eq_refl eq_refl eq_refl eq_refl).
Defined.

(** X14. On a handle without error channel, [Errors()] makes one
    channel of capacity one, open and empty, so that a receive blocks
    until an error is handled; a second [Errors()] returns the same
    channel and changes nothing, and [HandleError] sends on that very
    channel and closes it. *)
Theorem Errors_before_HandleError (w : World) (e : error) :
  errchMu (handle w) = false ->
  errch (handle w) = None ->
  exists w1 w2 c,
    Errors w = (w1, Returned (VChan (Some c))) /\
    chans w1 = chans w ++ [mkChan 1 [] false] /\
    chans w1 !! c = Some (mkChan 1 [] false) /\
    recv c w1 = None /\
    Errors w1 = (w1, Returned (VChan (Some c))) /\
    HandleError e w1 = (w2, Returned VUnit) /\
    errch (handle w2) = Some c /\
    length (chans w2) = length (chans w1) /\
    chans w2 !! c = Some (mkChan 1 [e] true).
Proof.
  intros Hmu Hn.
  assert (exists w1,
            Errors w = (w1, Returned (VChan (Some (length (chans w))))) /\
            handle w1 = set_errch (Some (length (chans w))) (handle w) /\
            chans w1 = chans w ++ [mkChan 1 [] false]) as (w1 & Hc1 & Hh1 & Hcs).
  { open_world w. subst. unfold Errors, call. simpl.
    eexists. split; [reflexivity|]. done. }
  assert (chans w1 !! length (chans w) = Some (mkChan 1 [] false)) as Hlk
    by (rewrite Hcs; apply lookup_snoc).
  assert (unused_errch w1) as Hun.
  { split; [by rewrite Hh1|]. rewrite Hh1. simpl. exact Hlk. }
  destruct (HandleError_unused e w1 Hun) as (w2 & Hc2 & Hh2 & Hch2 & _).
  assert (errch_of w1 = length (chans w)) as Heq
    by (unfold errch_of; by rewrite Hh1).
  rewrite Heq in *.
  exists w1, w2, (length (chans w)).
  split; [done|]. split; [done|]. split; [done|].
  split; [unfold recv; by rewrite Hlk|].
  split; [apply Errors_present; by rewrite Hh1|].
  split; [done|]. split; [by rewrite Hh2|]. split; [|done].
  assert (errch (handle w1) = Some (length (chans w))) as He
    by (by rewrite Hh1).
  destruct Hun as [Hmu1 _]. clear -Hc2 Hmu1 He Hlk.
  unfold HandleError, call in Hc2. open_world w1. subst. simpl in *.
  rewrite Hlk in Hc2. simpl in Hc2.
  rewrite list_lookup_insert_eq in Hc2 by (by eapply lookup_lt_Some).
  simpl in Hc2. injection Hc2 as <-. simpl. by rewrite !length_insert.
Qed.

Lemma Errors_before_HandleError_witness :
  let w := boot (test_app []) in
  exists w1 w2 c,
    Errors w = (w1, Returned (VChan (Some c))) /\
    chans w1 = [mkChan 1 [] false] /\
    chans w1 !! c = Some (mkChan 1 [] false) /\
    recv c w1 = None /\
    Errors w1 = (w1, Returned (VChan (Some c))) /\
    HandleError (Some "test error") w1 = (w2, Returned VUnit) /\
    errch (handle w2) = Some c /\
    length (chans w2) = length (chans w1) /\
    chans w2 !! c = Some (mkChan 1 [Some "test error"] true).
Proof.
  exact (Errors_before_HandleError (boot (test_app [])) (Some "test error")
           eq_refl eq_refl).
Defined.

(** The program points of [Logger] and [Exit]. *)
Definition logger_side (p : pc) : bool :=
  match p with
  | L_lock | L_check | L_new | L_store _ | L_init _ | L_load | L_unlock _
  | X_lock _ | X_check _ | X_isinit _ _ | X_shutdown _ _ | X_clear _
  | X_unlock _ | X_handler _ | X_returned => true
  | _ => false
  end.

(** X15. The two halves of the handle do not touch each other: no
    action of [Logger] or [Exit] changes the error channel, its mutex or
    any channel, and no action of [Errors] or [HandleError] changes the
    logger, its mutex, any base, the events or the life of the
    process. *)
Theorem locks_independent (p : pc) (w : World) :
  match step_pc p w with
  | Some (w', _) =>
      if logger_side p
      then errchMu (handle w') = errchMu (handle w) /\
           errch (handle w') = errch (handle w) /\ chans w' = chans w
      else loggerMu (handle w') = loggerMu (handle w) /\
           logger (handle w') = logger (handle w) /\ bases w' = bases w /\
           events w' = events w /\ exited w' = exited w
  | None => True
  end.
Proof.
  destruct p; simpl; repeat case_match; simplify_eq/=; done.
Qed.




End HandleMore.

(** ** More on concurrent callers *)

Module PoolMore.
Import Handle ErrorsFacts.

(** *** At most one [HandleError] returns *)

(** Calls of [HandleError] that have returned. *)
Definition returned_unit (t : thread) : nat :=
  match t with
  | Returned VUnit => 1
  | _ => 0
  end.

Definition closed_at (c0 : nat) (w : World) : Prop :=
  exists ch, chans w !! c0 = Some ch /\ chan_closed ch = true.

Lemma closed_stays c0 p w w' t' :
  (forall c, errch (handle w) = Some c -> c = c0) ->
  closed_at c0 w -> step_pc p w = Some (w', t') ->
  closed_at c0 w' /\ returned_unit t' = 0.
Proof.
  intros Hech (ch & Hch & Hcl).
  destruct p; simpl; repeat case_match; intros; simplify_eq/=;
    try (split; [by exists ch | done]);
    try (pose proof (Hech _ eq_refl); subst; simplify_eq; congruence).
  split; [|done]. exists ch. split; [|done]. by apply lookup_app_l_Some.
Qed.

Lemma returns_closed c0 p w w' t' :
  (forall c, errch (handle w) = Some c -> c = c0) ->
  step_pc p w = Some (w', t') -> returned_unit t' = 1 -> closed_at c0 w'.
Proof.
  intros Hech.
  destruct p; simpl; repeat case_match; intros; simplify_eq/=.
  pose proof (Hech _ eq_refl); subst.
  eexists. split;
    [apply list_lookup_insert_eq; by eapply lookup_lt_Some | reflexivity].
Qed.

Lemma recv_closed_stays c0 c w w' r :
  closed_at c0 w -> recv c w = Some (w', r) -> closed_at c0 w'.
Proof.
  intros (ch & Hch & Hcl) Hr.
  destruct (recv_cases _ _ _ _ Hr) as (ch1 & Hch1 & Hcases).
  destruct Hcases as [(e & rest & _ & _ & ->) | (_ & _ & _ & ->)];
    [|by exists ch].
  destruct (decide (c = c0)) as [->|Hne].
  - simplify_eq. eexists. split;
      [simpl; apply list_lookup_insert_eq; by eapply lookup_lt_Some
      | exact Hcl].
  - exists ch. split; [|done]. simpl. by rewrite list_lookup_insert_ne.
Qed.

Record one_shot (c0 : nat) (m : Pool) : Prop := {
  os_core : errch_core c0 m;
  os_count : total returned_unit (threads m) <= 1;
  os_closed : 0 < total returned_unit (threads m) -> closed_at c0 (world m)
}.

Lemma one_shot_step c0 x m m' :
  one_shot c0 m -> pool_step x m = Some m' -> one_shot c0 m'.
Proof.
  intros [Hcore Hcnt Hcl] Hstep.
  destruct (core_step _ _ _ _ Hcore Hstep) as (Hcore' & _).
  destruct Hcore as [Hex _ _ Hech _].
  unfold pool_step in Hstep. rewrite Hex in Hstep.
  destruct m as [w ths]; simpl in *. destruct x as [i|c].
  - destruct (ths !! i) as [[p| | |]|] eqn:Ei; try done.
    destruct (step_pc p w) as [[w' t']|] eqn:Ep; [|done]. simplify_eq.
    pose proof (total_insert returned_unit _ _ _ t' Ei) as Hins. simpl in Hins.
    destruct (decide (0 < total returned_unit ths)) as [Hpos | Hzero].
    + destruct (closed_stays _ _ _ _ _ Hech (Hcl Hpos) Ep) as [Hcl' Hz].
      split; simpl; [done | lia | done].
    + split; simpl; [done | destruct t' as [| [] | |]; simpl in *; lia |].
      intros Hpos. eapply returns_closed; [done | exact Ep |].
      destruct t' as [| [] | |]; simpl in *; lia.
  - destruct (recv c w) as [[w' r]|] eqn:Er; [|done]. simplify_eq.
    split; simpl; [done | done |]. intros Hpos.
    change (closed_at c0 w').
    eapply recv_closed_stays; [by apply Hcl | done].
Qed.

Lemma total_fmap_zero {A B} (f : B -> nat) (g : A -> B) (l : list A) :
  (forall x, f (g x) = 0) -> total f (g <$> l) = 0.
Proof.
  intros Hz. induction l as [|x l IH]; [done|].
  rewrite fmap_cons. cbn [total]. by rewrite Hz, IH.
Qed.

Lemma one_shot_init w0 (callers : list caller) :
  exited w0 = false -> errchMu (handle w0) = false ->
  errch (handle w0) = None ->
  one_shot (length (chans w0))
    (mkPool w0 ((fun k => Running (E_lock k)) <$> callers)).
Proof.
  intros Hex Hmu Hech. split; [split|..]; simpl; try done.
  - by rewrite total_fmap_zero, Hmu.
  - apply Forall_fmap, Forall_forall. done.
  - by rewrite Hech.
  - rewrite Hech. lia.
  - rewrite total_fmap_zero; [lia | done].
  - rewrite total_fmap_zero; [lia | done].
Qed.

(** X16. However many goroutines call [HandleError] and [Errors()]
    concurrently on a handle without error channel, and whatever readers
    receive, at most one call of [HandleError] ever returns; by then the
    channel is closed, so every other call ends in a panic or stays
    blocked. *)
Theorem HandleError_returns_once (w0 : World) (callers : list caller)
    (sched : list pool_action) :
  exited w0 = false ->
  errchMu (handle w0) = false ->
  errch (handle w0) = None ->
  match run pool_step sched
          (mkPool w0 ((fun k => Running (E_lock k)) <$> callers)) with
  | Some m =>
      (forall i j,
         threads m !! i = Some (Returned VUnit) ->
         threads m !! j = Some (Returned VUnit) -> i = j) /\
      (forall i,
         threads m !! i = Some (Returned VUnit) ->
         exists ch, chans (world m) !! length (chans w0) = Some ch /\
                    chan_closed ch = true)
  | None => True
  end.
Proof.
  intros Hex Hmu Hech.
  destruct (run pool_step sched _) as [m|] eqn:Hrun; [|done].
  assert (one_shot (length (chans w0)) m) as [_ Hcnt Hcl].
  { eapply (run_invariant pool_step (one_shot (length (chans w0))));
      [|by apply one_shot_init|exact Hrun].
    intros x s s' Hs Hstep. by eapply one_shot_step. }
  split.
  - intros i j Hi Hj.
    eapply (total_le_one_unique returned_unit (threads m)); eauto.
  - intros i Hi. apply Hcl.
    pose proof (total_lookup_le returned_unit _ _ _ Hi). simpl in *. lia.
Qed.

Lemma HandleError_returns_once_witness :
  let callers := [FromHandleError (Some "first");
                  FromHandleError (Some "second")] in
  let sched := [Step 0; Step 0; Step 0; Step 0; Step 1; Step 1; Step 1;
                Step 0; Step 0; Step 1] in
  exists m,
    run pool_step sched
      (mkPool (boot (test_app [])) ((fun k => Running (E_lock k)) <$> callers))
    = Some m /\
    threads m = [Returned VUnit; Panicked "send on closed channel"] /\
    (forall i j,
       threads m !! i = Some (Returned VUnit) ->
       threads m !! j = Some (Returned VUnit) -> i = j).
Proof.
  pose proof (HandleError_returns_once (boot (test_app []))
                [FromHandleError (Some "first");
                 FromHandleError (Some "second")]
                [Step 0; Step 0; Step 0; Step 0; Step 1; Step 1; Step 1;
                 Step 0; Step 0; Step 1]
                eq_refl eq_refl eq_refl) as H.
  vm_compute in H. eexists. split; [vm_compute; reflexivity|].
  split; [reflexivity|]. exact (proj1 H).
Defined.

(** *** [Logger()] while [Exit] and the other methods run *)

(** Goroutines between [Lock] and [Unlock] of [loggerMu], in [Logger]
    or in [Exit]. *)
Definition in_lock (t : thread) : nat :=
  match t with
  | Running (L_check | L_new | L_store _ | L_init _ | L_load | L_unlock _
            | X_check _ | X_isinit _ _ | X_shutdown _ _ | X_clear _
            | X_unlock _) => 1
  | _ => 0
  end.

(** What a goroutine knows of the logger field [lg] and of the number
    [nb] of bases; outside the lock only what it holds itself. *)
Definition knows (lg : option ptr) (nb : nat) (t : thread) : Prop :=
  match t with
  | Running (L_store p) => p < nb
  | Running (L_init p) => lg = Some p /\ p < nb
  | Running L_load => exists p, lg = Some p /\ p < nb
  | Running (L_unlock r) | Returned (VLogger r) =>
      exists p, r = Some p /\ p < nb
  | _ => True
  end.

Record locked_inv (m : Pool) : Prop := {
  lk_mutex :
    total in_lock (threads m)
    <= if loggerMu (handle (world m)) then 1 else 0;
  lk_threads :
    Forall (knows (logger (handle (world m))) (length (bases (world m))))
           (threads m);
  lk_valid :
    forall p, logger (handle (world m)) = Some p ->
              p < length (bases (world m))
}.

Lemma knows_more lg nb nb' t : nb <= nb' -> knows lg nb t -> knows lg nb' t.
Proof.
  intros Hle. destruct t as [[]| [] | |]; simpl; try done;
    try (intros (p & ? & ?); exists p; split; [done | lia]); naive_solver lia.
Qed.

Lemma knows_outside lg lg' nb t :
  in_lock t = 0 -> knows lg nb t -> knows lg' nb t.
Proof. destruct t as [[]| [] | |]; simpl; try done. Qed.

Lemma locked_step x m m' :
  locked_inv m -> pool_step x m = Some m' -> locked_inv m'.
Proof.
  intros [Hmu Hth Hv]. unfold pool_step.
  destruct (exited (world m)); [done|].
  destruct m as [w ths]; simpl in *. destruct x as [i|c].
  - destruct (ths !! i) as [t|] eqn:Ei; [|done].
    destruct t as [p| | |]; try done.
    pose proof (proj1 (Forall_lookup _ _) Hth i _ Ei) as Hp.
    pose proof (total_lookup_le in_lock _ _ _ Ei) as Hcs.
    assert (forall t', total in_lock (<[i:=t']> ths) + in_lock (Running p)
                       = total in_lock ths + in_lock t') as Hi1
      by (intros; by apply total_insert).
    assert (total in_lock ths <= 1) as Hone
      by (destruct (loggerMu (handle w)); lia).
    assert (forall lg' nb' t',
              length (bases w) <= nb' ->
              (in_lock (Running p) = 0 -> lg' = logger (handle w)) ->
              knows lg' nb' t' ->
              Forall (knows lg' nb') (<[i:=t']> ths)) as Hins.
    { intros lg' nb' t' Hnb Hlg Ht'. apply Forall_lookup. intros j t Hj.
      destruct (decide (j = i)) as [->|Hne].
      - rewrite list_lookup_insert_eq in Hj by (by eapply lookup_lt_Some).
        by simplify_eq.
      - rewrite list_lookup_insert_ne in Hj by done.
        pose proof (proj1 (Forall_lookup _ _) Hth j _ Hj) as Hk.
        apply knows_more with (length (bases w)); [done|].
        destruct (decide (0 < in_lock (Running p))) as [Hin | Hout].
        + apply knows_outside with (logger (handle w)); [|done].
          destruct (decide (0 < in_lock t)) as [Hpos|]; [|lia].
          exfalso. apply Hne.
          eapply (total_le_one_unique in_lock ths j i); eauto.
        + rewrite Hlg by lia. done. }
    destruct p; simpl in Hp; destruct_and?; simpl;
      repeat (match goal with
              | |- context [match ?x with _ => _ end] =>
                  lazymatch x with
                  | loggerMu _ => destruct x eqn:?
                  | logger _ => destruct x eqn:?
                  | errchMu _ => destruct x eqn:?
                  | errch _ => destruct x eqn:?
                  | ExitHandler _ => destruct x eqn:?
                  | gomol.isInitialized _ => destruct x eqn:?
                  | gomol.ShutdownLoggers _ => destruct x eqn:?
                  | chan_closed _ => destruct x eqn:?
                  | Nat.ltb _ _ => destruct x eqn:?
                  | _ !! _ => destruct x eqn:?
                  | ?f _ => is_var f; destruct x eqn:?
                  | _ => is_var x; destruct x
                  end
              end; simpl);
      try done; intros [= <-];
      match goal with
      | |- context [<[i:=?t']> ths] => specialize (Hi1 t')
      end;
      simpl in *;
      (split; simpl; rewrite ?length_insert, ?length_app; simpl;
       [try lia
       | apply Hins; rewrite ?length_insert, ?length_app; simpl;
         try done; try lia; try (intros; lia);
         try (eexists; split; [done | eauto; lia]);
         try (split; [done | lia])
       | try done; try (intros ? [= <-]; lia); try (intros ? ?; lia);
         try (intros q Hq; specialize (Hv q Hq); lia);
         try (intros q Hq; apply Hv; congruence)]).
  - unfold recv. destruct (chans w !! c) as [[n buf closed]|]; [|done]. simpl.
    destruct buf as [|e rest]; [destruct closed; [|done] |];
      intros [= <-]; simpl; by split.
Qed.

(** A goroutine about to call [Logger()], [Exit], [Errors()] or
    [HandleError]. *)
Definition at_entry (t : thread) : Prop :=
  match t with
  | Running (L_lock | X_lock _ | E_lock _) => True
  | _ => False
  end.

Lemma locked_init w0 ths :
  (forall p, logger (handle w0) = Some p -> p < length (bases w0)) ->
  Forall at_entry ths -> locked_inv (mkPool w0 ths).
Proof.
  intros Hv Hths. split; simpl; [| |done].
  - assert (total in_lock ths = 0) as ->; [|lia].
    induction Hths as [|t ths Ht _ IH]; simpl; [done|].
    rewrite IH. by destruct t as [[]| | |].
  - eapply Forall_impl; [exact Hths|]. intros t Ht.
    by destruct t as [[]| | |].
Qed.

(** X17. Whatever calls of [Logger()], [Exit], [Errors()] and
    [HandleError] run concurrently on a handle, and under every
    schedule, at most one goroutine is between [Lock] and [Unlock] of
    [loggerMu], and [Logger()] never returns nil: every reference it
    has returned is a base of the heap, also when an [Exit] has cleared
    the logger field in between. *)
Theorem Logger_never_nil (w0 : World) (ths : list thread)
    (sched : list pool_action) :
  (forall p, logger (handle w0) = Some p -> p < length (bases w0)) ->
  Forall at_entry ths ->
  match run pool_step sched (mkPool w0 ths) with
  | Some m =>
      total in_lock (threads m) <= 1 /\
      forall i r, threads m !! i = Some (Returned (VLogger r)) ->
                  exists p, r = Some p /\ is_Some (bases (world m) !! p)
  | None => True
  end.
Proof.
  intros Hv Hths.
  destruct (run pool_step sched (mkPool w0 ths)) as [m|] eqn:Hrun; [|done].
  assert (locked_inv m) as [Hmu Hk _].
  { eapply (run_invariant pool_step locked_inv);
      [apply locked_step | by apply locked_init | exact Hrun]. }
  split; [destruct (loggerMu (handle (world m))); lia|].
  intros i r Hi. pose proof (proj1 (Forall_lookup _ _) Hk i _ Hi) as Hr.
  destruct Hr as (p & -> & Hp). exists p. split; [done|].
  by apply lookup_lt_is_Some.
Qed.

Lemma Logger_never_nil_witness :
  let ths := [Running L_lock; Running (X_lock 255); Running L_lock] in
  let sched := [Step 0; Step 0; Step 0; Step 0; Step 0; Step 0; Step 0;
                Step 1; Step 1; Step 1; Step 1; Step 1; Step 1; Step 1;
                Step 2; Step 2; Step 2; Step 2; Step 2; Step 2; Step 2] in
  exists m,
    run pool_step sched (mkPool (boot (test_app [])) ths) = Some m /\
    threads m = [Returned (VLogger (Some 0)); Panicked "system exit 255";
                 Returned (VLogger (Some 1))] /\
    total in_lock (threads m) <= 1 /\
    forall i r, threads m !! i = Some (Returned (VLogger r)) ->
                exists p, r = Some p /\ is_Some (bases (world m) !! p).
Proof.
  assert (Forall at_entry
            [Running L_lock; Running (X_lock 255); Running L_lock]) as Hths
    by (repeat constructor).
  pose proof (Logger_never_nil (boot (test_app []))
                [Running L_lock; Running (X_lock 255); Running L_lock]
                [Step 0; Step 0; Step 0; Step 0; Step 0; Step 0; Step 0;
                 Step 1; Step 1; Step 1; Step 1; Step 1; Step 1; Step 1;
                 Step 2; Step 2; Step 2; Step 2; Step 2; Step 2; Step 2]
                (fun p (H : None = Some p) => False_ind _ (eq_ind None
                   (fun o => match o with None => True | Some _ => False end)
                   I _ H))
                Hths) as H.
  eexists. split; [vm_compute; reflexivity|]. split; [reflexivity|].
  exact H.
Defined.

End PoolMore.

(** ** The scenarios of the test suite *)

Module Tests.
Import Handle.

Definition environ : list string :=
  ["HOME=/home/test"; "PATH=/bin"; "TEST=true"].

(** One schedule among many: start the three goroutines, let them run
    in order, then the closing goroutine and the caller. *)
Definition in_order : list LookupEnv.action :=
  [LookupEnv.ASpawn; LookupEnv.ASpawn; LookupEnv.ASpawn;
   LookupEnv.AWorker 0; LookupEnv.AWorker 0;
   LookupEnv.AWorker 1; LookupEnv.AWorker 1;
   LookupEnv.AWorker 2; LookupEnv.AWorker 2;
   LookupEnv.ACloser; LookupEnv.ACloser; LookupEnv.ARecv].

Example lookup_PATH :
  LookupEnv.result <$>
    run (LookupEnv.step "PATH")
      [LookupEnv.ASpawn; LookupEnv.ASpawn; LookupEnv.AWorker 1;
       LookupEnv.AWorker 0; LookupEnv.AWorker 1]
      (LookupEnv.init (test_app environ))
  = Some (Some ("/bin", true)).
Proof. reflexivity. Qed.

Example lookup_FOOBAR :
  LookupEnv.result <$>
    run (LookupEnv.step "FOOBAR") in_order (LookupEnv.init (test_app environ))
  = Some (Some ("", false)).
Proof. reflexivity. Qed.

Example lookup_HOME_cancelled :
  LookupEnv.result <$>
    run (LookupEnv.step "HOME") (LookupEnv.ACancel :: in_order)
      (LookupEnv.init (test_app environ))
  = Some (Some ("", false)).
Proof. reflexivity. Qed.

(** A sender that meets a caller already gone stays blocked: with two
    entries for one key the second goroutine never finishes. *)
Example lookup_duplicate_blocks :
  (run (LookupEnv.step "K")
     [LookupEnv.ASpawn; LookupEnv.ASpawn; LookupEnv.AWorker 0;
      LookupEnv.AWorker 1; LookupEnv.AWorker 0]
     (LookupEnv.init (test_app ["K=1"; "K=2"]))
   ≫= LookupEnv.step "K" (LookupEnv.AWorker 1))
  = None.
Proof. reflexivity. Qed.

Example exit_without_logger :
  let '(w, t) := Exit 255 (boot (test_app [])) in
  events w = [EvExitHandler 255%Z] /\ t = Panicked "system exit 255".
Proof. split; reflexivity. Qed.

Example exit_handler_returned :
  snd (Exit 255 (boot (new_handle [] [] false 10 11 12
                         (Some (fun _ => HReturns)))))
  = Panicked "exit handler returned".
Proof. reflexivity. Qed.

Example exit_after_logger :
  let '(w, t) := Exit 255 (fst (Logger (boot (test_app [])))) in
  events w = [EvShutdown 0; EvExitHandler 255%Z] /\
  t = Panicked "system exit 255" /\
  logger (handle w) = None /\
  gomol.isInitialized <$> bases w !! 0 = Some false.
Proof. repeat split; reflexivity. Qed.

Example exit_without_handler :
  let '(w, t) := Exit 3 (boot (new_handle [] [] false 0 1 2 None)) in
  events w = [EvOsExit 3%Z] /\ exited w = true /\ t = Gone.
Proof. repeat split; reflexivity. Qed.

Example handle_error_then_read :
  let w1 := fst (HandleError (Some "test error") (boot (test_app []))) in
  (snd <$> recv 0 w1) = Some (Some "test error", true) /\
  (recv 0 w1 ≫= fun '(w2, _) => snd <$> recv 0 w2) = Some (None, false) /\
  snd (HandleError (Some "test error") w1) = Panicked "send on closed channel".
Proof. repeat split; reflexivity. Qed.

(** The console sink gets the timestamp only on the platform's stderr. *)
Example template_of_buffer :
  gomol.loggers (console_base (test_app []))
  = [gomol.ConsoleLogger true 12 logTemplate].
Proof. reflexivity. Qed.

Example template_of_stderr :
  gomol.loggers
    (console_base (new_handle [] [] false 0 1 os_Stderr None))
  = [gomol.ConsoleLogger true os_Stderr (timestamp +:+ logTemplate)].
Proof. reflexivity. Qed.

End Tests.
